(** * Shallow embedding of the zcash-relay-on-starknet helper scripts

    The scripts under [scripts/] build and check the data that the relay
    contract consumes: block header serialization and its double-SHA-256
    hash ([fetch.py]), proof-of-work from the compact [bits] field
    ([fetch.py]), Merkle trees and branches ([merkle-proof.py],
    [get-block-txs.py]) and the 224-bit verification identifier
    ([compute-verification-id.py], [format-block-calldata.py]).

    Python [bytes] are lists of [Byte.byte]; Python [str] values are lists
    of [ascii]; Python [int] is [Z] (or [nat] for list indices, which the
    scripts only use non-negatively).  A raised exception is an [Err]
    carrying the exception class and its message.  [hashlib.sha256] is
    left abstract: every result holds for any function in its place. *)

From Stdlib Require Import ZArith Ascii String List Bool Lia Arith.
From Stdlib Require Strings.Byte.
From Stdlib Require Import ZifyNat.
Import ListNotations.
Open Scope list_scope.

(** ** The Python builtins the scripts rely on *)
Module Py.

Definition str := list ascii.
Definition bytes := list Byte.byte.

(** A string literal, as a Python [str]. *)
Definition s (x : string) : str := list_ascii_of_string x.

Inductive exn_class := ValueError | IndexError | StructError | OverflowError | Exception.

Inductive exn := Exn (cls : exn_class) (msg : str).

(** [str(e)] of a raised exception. *)
Definition exn_msg (e : exn) : str := let 'Exn _ m := e in m.

Inductive res (A : Type) := Ok (a : A) | Err (e : exn).
Arguments Ok {A} a.
Arguments Err {A} e.

Definition bind {A B} (m : res A) (k : A -> res B) : res B :=
  match m with Ok a => k a | Err e => Err e end.

Notation "'let*' x ':=' m 'in' k" := (bind m (fun x => k))
  (at level 200, x name, m at level 100, k at level 200).

(** Indexing [xs[i]] with a non-negative index. *)
Definition index {A} (xs : list A) (i : nat) : res A :=
  match nth_error xs i with
  | Some x => Ok x
  | None => Err (Exn IndexError (s "index out of range"))
  end.

(** *** Hexadecimal digits *)

(** Value of a hexadecimal digit, either case. *)
Definition hexval (c : ascii) : option nat :=
  let n := nat_of_ascii c in
  if (48 <=? n) && (n <=? 57) then Some (n - 48)
  else if (97 <=? n) && (n <=? 102) then Some (n - 87)
  else if (65 <=? n) && (n <=? 70) then Some (n - 55)
  else None.

(** Lower-case digit for a value below 16, as [bytes.hex] and [format]
    print it. *)
Definition hex_digit (n : nat) : ascii :=
  if n <? 10 then ascii_of_nat (48 + n) else ascii_of_nat (87 + n).

(** ASCII whitespace, skipped by [bytes.fromhex] between byte pairs. *)
Definition is_space (c : ascii) : bool :=
  let n := nat_of_ascii c in
  (n =? 32) || ((9 <=? n) && (n <=? 13)).

(** [bytes.fromhex(x)]: pairs of hexadecimal digits, whitespace allowed
    before each pair.  (CPython also reports the position of the offending
    character; the message here leaves it out.) *)
Fixpoint fromhex_aux (l : str) : option bytes :=
  match l with
  | [] => Some []
  | c :: r =>
      if is_space c then fromhex_aux r else
      match r with
      | d :: r' =>
          match hexval c, hexval d with
          | Some hi, Some lo =>
              match Byte.of_nat (16 * hi + lo), fromhex_aux r' with
              | Some b, Some t => Some (b :: t)
              | _, _ => None
              end
          | _, _ => None
          end
      | [] => None
      end
  end.

Definition bytes_fromhex (x : str) : res bytes :=
  match fromhex_aux x with
  | Some b => Ok b
  | None => Err (Exn ValueError (s "non-hexadecimal number found in fromhex() arg"))
  end.

(** [bytes.hex()]: two lower-case digits per byte. *)
Definition byte_hex (b : Byte.byte) : str :=
  [hex_digit (Byte.to_nat b / 16); hex_digit (Byte.to_nat b mod 16)].

Definition bytes_hex (bs : bytes) : str := flat_map byte_hex bs.

(** [x.replace("0x", "")]: every non-overlapping occurrence, left to
    right. *)
Fixpoint replace_0x (l : str) : str :=
  match l with
  | c :: (d :: r) as t =>
      if (nat_of_ascii c =? 48) && (nat_of_ascii d =? 120) then replace_0x r
      else c :: replace_0x t
  | _ => l
  end.

(** [x.zfill(width)]: left zero padding, kept behind a leading sign. *)
Definition zfill (width : nat) (l : str) : str :=
  let fill := repeat "0"%char (width - length l) in
  if width <=? length l then l else
  match l with
  | c :: r => if (nat_of_ascii c =? 43) || (nat_of_ascii c =? 45)
              then c :: fill ++ r else fill ++ l
  | [] => fill
  end.

(** [int(x, 16)] on the digit strings the scripts give it (the chunks of a
    [bytes.hex()] result: no sign, prefix, underscore or whitespace). *)
Fixpoint int16_aux (acc : Z) (l : str) : option Z :=
  match l with
  | [] => Some acc
  | c :: r => match hexval c with
              | Some v => int16_aux (acc * 16 + Z.of_nat v)%Z r
              | None => None
              end
  end.

Definition int16 (l : str) : res Z :=
  match l with
  | [] => Err (Exn ValueError (s "invalid literal for int() with base 16: ''"))
  | _ => match int16_aux 0 l with
         | Some v => Ok v
         | None => Err (Exn ValueError (s "invalid literal for int() with base 16"))
         end
  end.

(** *** Integers and bytes *)

Definition byte_of_Z (z : Z) : Byte.byte :=
  match Byte.of_N (Z.to_N (z mod 256)) with Some b => b | None => Byte.x00 end.

Definition byte_Z (b : Byte.byte) : Z := Z.of_N (Byte.to_N b).

(** The [w] low-order bytes of [v], least significant first. *)
Fixpoint le_bytes (w : nat) (v : Z) : bytes :=
  match w with
  | O => []
  | S w' => byte_of_Z v :: le_bytes w' (v / 256)
  end.

(** [int.from_bytes(b, 'little')] and [int.from_bytes(b, 'big')]. *)
Fixpoint from_bytes_little (bs : bytes) : Z :=
  match bs with
  | [] => 0%Z
  | b :: t => (byte_Z b + 256 * from_bytes_little t)%Z
  end.

Definition from_bytes_big (bs : bytes) : Z := from_bytes_little (rev bs).

(** [v.to_bytes(w, 'little')]. *)
Definition to_bytes_little (v : Z) (w : nat) : res bytes :=
  if (v <? 0)%Z then Err (Exn OverflowError (s "can't convert negative int to unsigned"))
  else if (2 ^ (8 * Z.of_nat w) <=? v)%Z then Err (Exn OverflowError (s "int too big to convert"))
  else Ok (le_bytes w v).

(** [struct.pack('<I', v)] and [struct.pack('<H', v)]. *)
Definition pack_I (v : Z) : res bytes :=
  if (0 <=? v)%Z && (v <? 2 ^ 32)%Z then Ok (le_bytes 4 v)
  else Err (Exn StructError (s "argument out of range")).

Definition pack_H (v : Z) : res bytes :=
  if (0 <=? v)%Z && (v <? 2 ^ 16)%Z then Ok (le_bytes 2 v)
  else Err (Exn StructError (s "argument out of range")).

(** [struct.unpack('<H', b)[0]]: exactly two bytes. *)
Definition unpack_H (b : bytes) : res Z :=
  if length b =? 2 then Ok (from_bytes_little b)
  else Err (Exn StructError (s "unpack requires a buffer of 2 bytes")).

(** [f"{v:056x}"] for a non-negative [v]: the shortest lower-case hex
    digits of [v], zero padded on the left to width 56. *)
Fixpoint hex_min_aux (fuel : nat) (v : Z) : str :=
  match fuel with
  | O => []
  | S f => if (v <? 16)%Z then [hex_digit (Z.to_nat v)]
           else hex_min_aux f (v / 16) ++ [hex_digit (Z.to_nat (v mod 16))]
  end.

Definition hex_min (v : Z) : str := hex_min_aux (S (Z.to_nat (Z.log2 v))) v.

Definition format_056x (v : Z) : str :=
  let d := hex_min v in repeat "0"%char (56 - length d) ++ d.

(** String equality [a == b]. *)
Definition str_eqb (a b : str) : bool := if list_eq_dec ascii_dec a b then true else false.

End Py.

Import Py.

(** ** [scripts/merkle-proof.py] *)
Module MerkleProof.

Section Merkle.

(** [hashlib.sha256(x).digest()] *)
Variable sha256 : bytes -> bytes.

Definition double_sha256 (data : bytes) : bytes := sha256 (sha256 data).

(** [hash_hex.replace("0x", "").zfill(64)], [bytes.fromhex], [[::-1]]:
    the display-to-internal conversion shared by [hash_to_digest_array]
    and [hash_to_internal_hex]. *)
Definition internal_bytes (hash_hex : str) : res bytes :=
  let hash_hex := zfill 64 (replace_0x hash_hex) in
  let* hash_bytes := bytes_fromhex hash_hex in
  Ok (rev hash_bytes).

(** The loop of [hash_to_digest_array]: big-endian 32-bit words of
    [raw_bytes[i:i+4]] for [i] in [range(0, 32, 4)]. *)
Definition digest_words (raw_bytes : bytes) : list Z :=
  map (fun i => from_bytes_big (firstn 4 (skipn i raw_bytes))) [0; 4; 8; 12; 16; 20; 24; 28].

Definition hash_to_digest_array (hash_hex : str) : res (list Z) :=
  let* raw_bytes := internal_bytes hash_hex in
  Ok (digest_words raw_bytes).

Definition hash_to_internal_hex (hash_hex : str) : res str :=
  let* raw_bytes := internal_bytes hash_hex in
  Ok (bytes_hex raw_bytes).

(** [b[::-1].hex()], the display form written for each branch entry by
    [generate_merkle_proof]. *)
Definition display_hex (b : bytes) : str := bytes_hex (rev b).

(** [if len(l) % 2 == 1: l.append(l[-1])] *)
Definition pad (l : list bytes) : list bytes :=
  if Nat.odd (length l) then l ++ [last l []] else l.

(** [[double_sha256(l[i] + l[i+1]) for i in range(0, len(l), 2)]]; the
    list is always padded to even length first, so the trailing single
    element on which Python would raise never occurs. *)
Fixpoint hash_pairs (l : list bytes) : list bytes :=
  match l with
  | a :: b :: t => double_sha256 (a ++ b) :: hash_pairs t
  | _ => []
  end.

(** The [while] loop of [build_merkle_tree].  [levels] is the list being
    built; after the first round its last entry is the same list object as
    [current_level] ([levels.append(next_level); current_level =
    next_level]), so the in-place [current_level.append] also pads that
    stored level: [aliased] records this sharing.  The first level is a
    copy ([tx_hashes[:]]) and is not padded.  [fuel] bounds the rounds;
    [length tx_hashes] always suffices. *)
Fixpoint build_loop (fuel : nat) (levels : list (list bytes))
    (current_level : list bytes) (aliased : bool) : bytes * list (list bytes) :=
  match fuel with
  | O => (hd [] current_level, levels)
  | S fuel' =>
      if 1 <? length current_level then
        let current_level' := pad current_level in
        let levels' := if aliased then removelast levels ++ [current_level'] else levels in
        let next_level := hash_pairs current_level' in
        build_loop fuel' (levels' ++ [next_level]) next_level true
      else (hd [] current_level, levels)
  end.

(** [build_merkle_tree(tx_hashes)]: [(root, levels)]. *)
Definition build_merkle_tree (tx_hashes : list bytes) : bytes * list (list bytes) :=
  match tx_hashes with
  | [] => (repeat Byte.x00 32, [[]])
  | _ => build_loop (length tx_hashes) [tx_hashes] tx_hashes false
  end.

(** The [for level in levels[:-1]] loop of [get_merkle_proof]. *)
Fixpoint proof_walk (levels : list (list bytes)) (idx : nat) : list bytes :=
  match levels with
  | [] => []
  | level :: rest =>
      let level_copy := pad level in
      let sibling_idx := if Nat.even idx then idx + 1 else idx - 1 in
      let piece := if sibling_idx <? length level_copy
                   then [nth sibling_idx level_copy []] else [] in
      piece ++ proof_walk rest (idx / 2)
  end.

(** [get_merkle_proof(tx_hashes, tx_index)]: [(branch, root)]. *)
Definition get_merkle_proof (tx_hashes : list bytes) (tx_index : nat) : list bytes * bytes :=
  let '(root, levels) := build_merkle_tree tx_hashes in
  (proof_walk (removelast levels) tx_index, root).

End Merkle.

End MerkleProof.

(** ** [scripts/get-block-txs.py] *)
Module GetBlockTxs.

Section Merkle.

Variable sha256 : bytes -> bytes.

Definition double_sha256 (data : bytes) : bytes := sha256 (sha256 data).

(** [[double_sha256(current[i] + current[i+1]) for i in range(0,
    len(current), 2)]], on a list already padded to even length. *)
Fixpoint pairs (l : list bytes) : list bytes :=
  match l with
  | a :: b :: t => double_sha256 (a ++ b) :: pairs t
  | _ => []
  end.

(** The [while len(current) > 1] loop of [get_merkle_proof]: the branch
    (display hex) and the final [current]. *)
Fixpoint proof_loop (fuel : nat) (current : list bytes) (idx : nat) : list str * list bytes :=
  match fuel with
  | O => ([], current)
  | S fuel' =>
      if 1 <? length current then
        let current := if Nat.odd (length current)
                       then current ++ [last current []] else current in
        let sibling_idx := if Nat.even idx then idx + 1 else idx - 1 in
        let piece := if sibling_idx <? length current
                     then [bytes_hex (rev (nth sibling_idx current []))] else [] in
        let next_level := pairs current in
        let '(branch, final) := proof_loop fuel' next_level (idx / 2) in
        (piece ++ branch, final)
      else ([], current)
  end.

(** [get_merkle_proof(tx_hashes, tx_index)]: [(branch, current[0])]. *)
Definition get_merkle_proof (tx_hashes : list bytes) (tx_index : nat) : res (list str * bytes) :=
  if length tx_hashes =? 1 then Ok ([], hd [] tx_hashes) else
  let '(branch, current) := proof_loop (length tx_hashes) tx_hashes tx_index in
  let* root := index current 0 in
  Ok (branch, root).

End Merkle.

End GetBlockTxs.

(** ** [verifyProof], the test-suite check of a Merkle branch *)
Module VerifyProof.

Section Verify.

Variable sha256 : bytes -> bytes.

(** Modelled from the spec: [verifyProof(leafDigest, branch, index,
    expectedRoot)], which the spec places in the test suite (it is not one
    of the scripts).  The branch is folded from the leaf: with an even
    index the running value is the left input of [doubleHash], with an odd
    index the right one; the index is halved after each step. *)
Fixpoint fold_branch (current : bytes) (branch : list bytes) (index : nat) : bytes :=
  match branch with
  | [] => current
  | b :: rest =>
      let current' := if Nat.even index
                      then MerkleProof.double_sha256 sha256 (current ++ b)
                      else MerkleProof.double_sha256 sha256 (b ++ current) in
      fold_branch current' rest (index / 2)
  end.

Definition verifyProof (leafDigest : bytes) (branch : list bytes) (index : nat)
    (expectedRoot : bytes) : bool :=
  if list_eq_dec Byte.byte_eq_dec (fold_branch leafDigest branch index) expectedRoot
  then true else false.

End Verify.

End VerifyProof.

(** ** [scripts/fetch.py] *)
Module Fetch.

(** The [Digest] dictionary built by [hash_to_digest]: [value], [hex] and
    [cairo_hex]. *)
Record digest := { value : list Z; hex : str; cairo_hex : str }.

Definition hash_to_digest (hash_hex : str) : res digest :=
  let hash_hex := zfill 64 (replace_0x hash_hex) in
  let* hash_bytes := bytes_fromhex hash_hex in
  let raw_bytes := rev hash_bytes in
  Ok {| value := MerkleProof.digest_words raw_bytes;
        hex := bytes_hex raw_bytes; cairo_hex := bytes_hex raw_bytes |}.

(** The header dictionary of [fetch_block_header], with the entries
    [serialize_header] reads. *)
Record header := {
  n_version : Z;
  hash_prev_block : digest;
  hash_merkle_root : digest;
  hash_block_commitments : digest;
  n_time : Z;
  n_bits : Z;
  n_nonce : Z }.

(** The target computed from [bits] in [calculate_pow] (its first three
    statements); Python's [>>], [<<] and [&] on unbounded integers are
    [Z.shiftr], [Z.shiftl] and [Z.land]. *)
Definition bits_target (bits : Z) : Z :=
  let mantissa := Z.land bits 0xffffff in
  let exponent := Z.land (Z.shiftr bits 24) 0xff in
  if (exponent <=? 3)%Z
  then Z.shiftr mantissa (8 * (3 - exponent))
  else Z.shiftl mantissa (8 * (exponent - 3)).

(** [calculate_pow(bits)]; Python's [//] is [Z.div] (both floor). *)
Definition calculate_pow (bits : Z) : Z :=
  let target := bits_target bits in
  if (target =? 0)%Z then 0%Z else
  let max_256bit := (Z.shiftl 1 256 - 1)%Z in
  let inverted_target := (max_256bit - target)%Z in
  let pow_value := (inverted_target / (target + 1) + 1)%Z in
  pow_value.

(** [serialize_header(header_data, raw_block_hex)]. *)
Definition serialize_header (header_data : header) (raw_block_hex : str) : res bytes :=
  let* raw_bytes := bytes_fromhex raw_block_hex in
  let* version := pack_I (n_version header_data) in
  let* prev_hash := bytes_fromhex (hex (hash_prev_block header_data)) in
  let* merkle_root := bytes_fromhex (hex (hash_merkle_root header_data)) in
  let* commitments := bytes_fromhex (hex (hash_block_commitments header_data)) in
  let* time := pack_I (n_time header_data) in
  let* bits := pack_I (n_bits header_data) in
  let* nonce_bytes := to_bytes_little (n_nonce header_data) 32 in
  let serialized := version ++ prev_hash ++ merkle_root ++ commitments
                    ++ time ++ bits ++ nonce_bytes in
  let offset := 140 in
  let* solution_length := index raw_bytes offset in
  let n := Byte.to_nat solution_length in
  if n <? 253 then
    (* bytes([solution_length]) is the byte read *)
    let offset := offset + 1 in
    let solution_data := firstn n (skipn offset raw_bytes) in
    Ok (serialized ++ [solution_length] ++ solution_data)
  else if n =? 253 then
    let* length := unpack_H (firstn 2 (skipn (offset + 1) raw_bytes)) in
    let* length_bytes := pack_H length in
    let offset := offset + 3 in
    let solution_data := firstn (Z.to_nat length) (skipn offset raw_bytes) in
    Ok (serialized ++ [Byte.xfd] ++ length_bytes ++ solution_data)
  else Err (Exn Exception (s "Unexpected solution length format")).

Section Hashing.

Variable sha256 : bytes -> bytes.

(** [double_sha256(data)] of [fetch.py]: the display hex of the digest. *)
Definition double_sha256 (data : bytes) : str :=
  let first_hash := sha256 data in
  let second_hash := sha256 first_hash in
  bytes_hex (rev second_hash).

(** [verify_block_hash(header_data, raw_block_hex, expected_hash)]:
    [(is_valid, computed_hash)]; every exception of the [try] block is
    caught and reported as [(False, f"Error: {e}")]. *)
Definition verify_block_hash (header_data : header) (raw_block_hex expected_hash : str)
    : bool * str :=
  match serialize_header header_data raw_block_hex with
  | Ok serialized =>
      let computed_hash := double_sha256 serialized in
      (str_eqb computed_hash expected_hash, computed_hash)
  | Err e => (false, s "Error: " ++ exn_msg e)
  end.

(** The [if verify:] branch of [fetch_block_header], given the header
    dictionary [result] built before it and the [getblock] result
    [raw_block]: the [n_solution] bytes it records and the
    [(valid, computed_hash)] pair of the verification. *)
Definition fetch_block_header_verify (result : header) (raw_block blockhash : str)
    : res (bytes * (bool * str)) :=
  let* raw_bytes := bytes_fromhex raw_block in
  let offset := 140 in
  let* solution_length := index raw_bytes offset in
  let n := Byte.to_nat solution_length in
  let* solution_data :=
    if n <? 253 then
      let offset := offset + 1 in
      Ok (firstn n (skipn offset raw_bytes))
    else if n =? 253 then
      let* length := unpack_H (firstn 2 (skipn (offset + 1) raw_bytes)) in
      let offset := offset + 3 in
      Ok (firstn (Z.to_nat length) (skipn offset raw_bytes))
    else Ok [] in
  Ok (solution_data, verify_block_hash result raw_block blockhash).

End Hashing.

End Fetch.

(** Error-propagating [map] over a Python [for] loop that appends. *)
Fixpoint res_map {A B} (f : A -> res B) (l : list A) : res (list B) :=
  match l with
  | [] => Ok []
  | x :: t => let* y := f x in let* ys := res_map f t in Ok (y :: ys)
  end.

(** ** [scripts/compute-verification-id.py] *)
Module ComputeVerificationId.

Definition compute_verification_id_from_block_hash (block_hash_hex : str) : res Z :=
  let block_hash_hex := replace_0x block_hash_hex in
  let* hash_bytes := bytes_fromhex block_hash_hex in
  let internal_bytes := rev hash_bytes in
  let internal_hex := bytes_hex internal_bytes in
  let* u32_array := res_map (fun i => int16 (firstn 8 (skipn i internal_hex)))
                      [0; 8; 16; 24; 32; 40; 48; 56] in
  Ok (fold_left (fun result w => result * 0x100000000 + w)%Z (firstn 7 u32_array) 0%Z).

(** The printed line [f"0x{verification_id:056x}"]. *)
Definition main_output (block_hash : str) : res str :=
  let* verification_id := compute_verification_id_from_block_hash block_hash in
  Ok (s "0x" ++ format_056x verification_id).

End ComputeVerificationId.

(** ** [scripts/format-block-calldata.py] *)
Module FormatBlockCalldata.

Definition compute_verification_id (block_hash_hex : str) : res str :=
  let block_hash_hex := replace_0x block_hash_hex in
  let* hash_bytes := bytes_fromhex block_hash_hex in
  let internal_bytes := rev hash_bytes in
  let internal_hex := bytes_hex internal_bytes in
  let* u32_array := res_map (fun i => int16 (firstn 8 (skipn i internal_hex)))
                      [0; 8; 16; 24; 32; 40; 48; 56] in
  let result := fold_left (fun result w => result * 0x100000000 + w)%Z (firstn 7 u32_array) 0%Z in
  Ok (s "0x" ++ format_056x result).

End FormatBlockCalldata.

(** ** The levels of a Merkle tree, as used in the proofs *)
Module MerkleLevels.

Import MerkleProof.

Section Levels.

Variable sha256 : bytes -> bytes.

(** The level left when the pairing loop of [build_merkle_tree] stops. *)
Fixpoint final_level (fuel : nat) (current : list bytes) : list bytes :=
  match fuel with
  | O => current
  | S f => if 1 <? length current
           then final_level f (hash_pairs sha256 (pad current)) else current
  end.

(** The levels above [current], as [build_merkle_tree] stores them: each
    one padded in place when the loop goes on from it. *)
Fixpoint upper_levels (fuel : nat) (current : list bytes) : list (list bytes) :=
  match fuel with
  | O => []
  | S f =>
      if 1 <? length current then
        let next := hash_pairs sha256 (pad current) in
        (if 1 <? length next then pad next else next) :: upper_levels f next
      else []
  end.

(** The stored levels once the round on [current] has padded the level it
    shares with [current]. *)
Definition settle (levels : list (list bytes)) (current : list bytes) (aliased : bool)
    : list (list bytes) :=
  if aliased && (1 <? length current) then removelast levels ++ [pad current] else levels.

End Levels.

End MerkleLevels.

(** ** Well-formed hexadecimal text *)
Module HexText.

(** A hexadecimal digit of either case. *)
Definition is_hex_char (c : ascii) : bool :=
  let n := nat_of_ascii c in
  ((48 <=? n) && (n <=? 57)) || ((97 <=? n) && (n <=? 102)) || ((65 <=? n) && (n <=? 70)).

(** A lower-case hexadecimal digit. *)
Definition is_lower_hex_char (c : ascii) : bool :=
  let n := nat_of_ascii c in
  ((48 <=? n) && (n <=? 57)) || ((97 <=? n) && (n <=? 102)).

End HexText.

(** ** Sample inputs *)
Module Samples.

(** A stand-in for [hashlib.sha256] on sample inputs; the results proved
    below hold for every function. *)
Definition toy_sha256 (b : bytes) : bytes := firstn 3 (Byte.x5a :: b).

Definition leaves5 : list bytes :=
  [[Byte.x01]; [Byte.x02]; [Byte.x03]; [Byte.x04]; [Byte.x05]].

(** A digest whose internal-order hex is 32 zero bytes. *)
Definition zero_digest : Fetch.digest :=
  {| Fetch.value := repeat 0%Z 8;
     Fetch.hex := bytes_hex (repeat Byte.x00 32);
     Fetch.cairo_hex := bytes_hex (repeat Byte.x00 32) |}.

Definition sample_header : Fetch.header :=
  {| Fetch.n_version := 4%Z;
     Fetch.hash_prev_block := zero_digest;
     Fetch.hash_merkle_root := zero_digest;
     Fetch.hash_block_commitments := zero_digest;
     Fetch.n_time := 1477641360%Z;
     Fetch.n_bits := 0x1f07ffff%Z;
     Fetch.n_nonce := 1%Z |}.

(** A raw block whose byte 140, the solution's compact-size marker, is
    [marker], followed by [rest]. *)
Definition raw_with_marker (marker : Byte.byte) (rest : bytes) : bytes :=
  repeat Byte.x00 140 ++ marker :: rest.

End Samples.

(** ** More Python builtins: [str(int)], [str.lower], [str.startswith],
    [f"{v:08x}"] and [str.join] *)
Module PyMore.

(** Decimal digits of a non-negative [v], most significant first; [fuel]
    bounds the digits. *)
Fixpoint dec_min_aux (fuel : nat) (v : Z) : str :=
  match fuel with
  | O => []
  | S f => if (v <? 10)%Z then [ascii_of_nat (48 + Z.to_nat v)]
           else dec_min_aux f (v / 10) ++ [ascii_of_nat (48 + Z.to_nat (v mod 10))]
  end.

(** [str(v)] for an [int] [v]: its decimal digits, behind a minus sign
    when [v] is negative. *)
Definition str_int (v : Z) : str :=
  if (v <? 0)%Z then "-"%char :: dec_min_aux (S (Z.to_nat (Z.log2 (- v)))) (- v)
  else dec_min_aux (S (Z.to_nat (Z.log2 v))) v.

(** Value of a decimal digit. *)
Definition decval (c : ascii) : option nat :=
  let n := nat_of_ascii c in
  if (48 <=? n) && (n <=? 57) then Some (n - 48) else None.

Definition is_digit (c : ascii) : bool :=
  match decval c with Some _ => true | None => false end.

(** [int(x)] on unsigned digit strings, the form in which the scripts'
    output is read back (a felt on the [sncast] command line). *)
Fixpoint int10_aux (acc : Z) (l : str) : option Z :=
  match l with
  | [] => Some acc
  | c :: r => match decval c with
              | Some v => int10_aux (acc * 10 + Z.of_nat v)%Z r
              | None => None
              end
  end.

Definition int10 (l : str) : res Z :=
  match l with
  | [] => Err (Exn ValueError (s "invalid literal for int() with base 10: ''"))
  | _ => match int10_aux 0 l with
         | Some v => Ok v
         | None => Err (Exn ValueError (s "invalid literal for int() with base 10"))
         end
  end.

(** [str.lower()] on ASCII text. *)
Definition lower_char (c : ascii) : ascii :=
  let n := nat_of_ascii c in
  if (65 <=? n) && (n <=? 90) then ascii_of_nat (n + 32) else c.

Definition lower (l : str) : str := map lower_char l.

(** [l.startswith(p)] *)
Definition startswith (l p : str) : bool := str_eqb (firstn (length p) l) p.

(** [f"{v:08x}"] for a non-negative [v]. *)
Definition format_08x (v : Z) : str :=
  let d := hex_min v in repeat "0"%char (8 - length d) ++ d.

(** The newline character. *)
Definition newline : ascii := ascii_of_nat 10.

(** ["\n".join(lines)] *)
Fixpoint join_nl (lines : list str) : str :=
  match lines with
  | [] => []
  | [l] => l
  | l :: t => l ++ newline :: join_nl t
  end.

(** [x.split("\n")], used to read the lines of a printed text back. *)
Fixpoint split_nl_aux (cur : str) (l : str) : list str :=
  match l with
  | [] => [rev cur]
  | c :: r => if ascii_dec c newline then rev cur :: split_nl_aux [] r
              else split_nl_aux (c :: cur) r
  end.

Definition split_nl (l : str) : list str := split_nl_aux [] l.

(** [a == b] on [bytes]. *)
Definition bytes_eqb (a b : bytes) : bool :=
  if list_eq_dec Byte.byte_eq_dec a b then true else false.

End PyMore.

Import PyMore.

(** ** [fetch.py]: the result of [fetch_block_header] *)
Module FetchBlock.

Import Fetch.

(** The [bits] entry of a [getblockheader] result: a hex string or a
    number ([isinstance(header["bits"], str)]). *)
Inductive json_bits := BitsStr (b : str) | BitsInt (b : Z).

(** The entries of the [getblockheader] result that [fetch_block_header]
    reads; [None] stands for an absent key of [header.get(...)]. *)
Record rpc_header := {
  version : Z;
  previousblockhash : option str;
  merkleroot : str;
  blockcommitments : option str;
  time : Z;
  bits : json_bits;
  nonce : option str }.


Section Fetching.

Variable sha256 : bytes -> bytes.


End Fetching.

(** [digest_to_internal_hex(digest_values)], local to [display_header]:
    [''.join(f'{val:08x}' for val in digest_values)]. *)
Definition digest_to_internal_hex (digest_values : list Z) : str :=
  flat_map format_08x digest_values.

End FetchBlock.

(** ** [scripts/format-block-calldata.py]: calldata *)
Module BlockCalldata.

Import Fetch.

(** [header_data['n_solution']]: the dictionary [fetch_block_header]
    stores, or a bare hex string. *)
Inductive solution_field := SolutionDict (hex : str) (length : nat) | SolutionHex (hex : str).

Definition digest_to_calldata (digest_dict : digest) : list str :=
  map str_int (value digest_dict).

Definition u256_to_calldata (value : Z) : list str :=
  let low := Z.land value (Z.shiftl 1 128 - 1) in
  let high := Z.shiftr value 128 in
  [str_int low; str_int high].

(** [[int(solution_hex[i:i+2], 16) for i in range(0, len(solution_hex), 2)]],
    then the length and the bytes. *)
Definition solution_to_calldata (solution_hex : str) : res (list str) :=
  let* bytes_list := res_map (fun i => int16 (firstn 2 (skipn i solution_hex)))
                       (map (fun k => 2 * k) (seq 0 ((length solution_hex + 1) / 2))) in
  Ok ([str_int (Z.of_nat (length bytes_list))] ++ map str_int bytes_list).

Definition header_to_calldata (header_data : header) (n_solution : solution_field)
    : res (list str) :=
  let solution_hex := match n_solution with
                      | SolutionDict h _ => h
                      | SolutionHex h => h
                      end in
  let calldata := [str_int (n_version header_data)]
                  ++ digest_to_calldata (hash_prev_block header_data)
                  ++ digest_to_calldata (hash_merkle_root header_data)
                  ++ digest_to_calldata (hash_block_commitments header_data)
                  ++ [str_int (n_time header_data)]
                  ++ [str_int (n_bits header_data)]
                  ++ u256_to_calldata (n_nonce header_data) in
  let* solution := solution_to_calldata solution_hex in
  Ok (calldata ++ solution).

End BlockCalldata.

(** ** [scripts/merkle-proof.py]: [generate_merkle_proof] and
    [format_cairo_calldata] *)
Module MerkleProofOutput.

Import MerkleProof.

(** The dictionary [generate_merkle_proof] returns. *)
Record proof_result := {
  tx_id : str;
  tx_id_internal : str;
  tx_id_digest : list Z;
  block_hash : str;
  block_hash_internal : str;
  block_hash_digest : list Z;
  merkle_root : str;
  merkle_root_internal : str;
  merkle_root_digest : list Z;
  merkle_branch : list str;
  merkle_branch_internal : list str;
  merkle_branch_digests : list (list Z);
  merkle_index : nat;
  tx_count : nat }.

(** The search loop: the first [i] with [tid.lower() == txid_lower]. *)
Fixpoint find_tx (txids : list str) (txid_lower : str) (i : nat) : option nat :=
  match txids with
  | [] => None
  | tid :: t => if str_eqb (lower tid) txid_lower then Some i else find_tx t txid_lower (S i)
  end.

Section Generate.

Variable sha256 : bytes -> bytes.

(** [generate_merkle_proof(block_identifier, txid)] after
    [get_block_txids] has returned [(block_hash, txids, merkle_root)].
    The boolean is whether the [warning: computed root ...] line is
    printed. *)
Definition generate_merkle_proof (block_txids : str * list str * str) (txid : str)
    : res (bool * proof_result) :=
  let '(block_hash, txids, merkle_root) := block_txids in
  let txid_lower := lower txid in
  match find_tx txids txid_lower 0 with
  | None => Err (Exn Exception (s "Transaction " ++ txid ++ s " not found in block " ++ block_hash))
  | Some tx_index =>
      let* tx_hashes := res_map (fun tid => let* b := bytes_fromhex tid in Ok (rev b)) txids in
      let '(branch, computed_root) := get_merkle_proof sha256 tx_hashes tx_index in
      let* expected := bytes_fromhex merkle_root in
      let expected_root_internal := rev expected in
      let warned := negb (bytes_eqb computed_root expected_root_internal) in
      let* tx_id_internal := hash_to_internal_hex txid in
      let* tx_id_digest := hash_to_digest_array txid in
      let* block_hash_internal := hash_to_internal_hex block_hash in
      let* block_hash_digest := hash_to_digest_array block_hash in
      let* merkle_root_internal := hash_to_internal_hex merkle_root in
      let* merkle_root_digest := hash_to_digest_array merkle_root in
      let* merkle_branch_digests :=
        res_map (fun b => hash_to_digest_array (bytes_hex (rev b))) branch in
      Ok (warned,
          {| tx_id := txid; tx_id_internal := tx_id_internal; tx_id_digest := tx_id_digest;
             block_hash := block_hash; block_hash_internal := block_hash_internal;
             block_hash_digest := block_hash_digest;
             merkle_root := merkle_root; merkle_root_internal := merkle_root_internal;
             merkle_root_digest := merkle_root_digest;
             merkle_branch := map (fun b => bytes_hex (rev b)) branch;
             merkle_branch_internal := map bytes_hex branch;
             merkle_branch_digests := merkle_branch_digests;
             merkle_index := tx_index; tx_count := length txids |})
  end.

End Generate.

(** The [for i, branch_digest in enumerate(proof['merkle_branch_digests'])]
    loop of [format_cairo_calldata]. *)
Fixpoint branch_lines (i : nat) (digests : list (list Z)) (branch : list str) : res (list str) :=
  match digests with
  | [] => Ok []
  | d :: t =>
      let* b := index branch i in
      let* rest := branch_lines (S i) t branch in
      Ok ((s "// branch[" ++ str_int (Z.of_nat i) ++ s "]: " ++ b) :: map str_int d ++ rest)
  end.

Definition format_cairo_calldata (proof : proof_result) : res str :=
  let n := str_int (Z.of_nat (length (merkle_branch proof))) in
  let* branch := branch_lines 0 (merkle_branch_digests proof) (merkle_branch proof) in
  let lines :=
    [s "// cairo calldata for verify_transaction_in_block"; [];
     s "// block_hash: Digest"; s "// " ++ block_hash proof]
    ++ map str_int (block_hash_digest proof)
    ++ [[]; s "// tx_id: Digest"; s "// " ++ tx_id proof]
    ++ map str_int (tx_id_digest proof)
    ++ [[]; s "// merkle_branch: Array<Digest> (len=" ++ n ++ s ")"; n]
    ++ branch
    ++ [[]; s "// merkle_index: u32"; str_int (Z.of_nat (merkle_index proof))] in
  Ok (join_nl lines).

(** Whether a line of the calldata text carries a value: neither empty
    nor a [//] comment. *)
Definition data_line (l : str) : bool :=
  match l with
  | [] => false
  | _ => negb (startswith l (s "//"))
  end.

End MerkleProofOutput.

(** ** [scripts/populate-existing-txs.py] *)
Module PopulateTxs.

Local Set Warnings "-register-all".

(** The JSON values of [verifications.json]. *)
Inductive json :=
  | JNull | JBool (b : bool) | JInt (z : Z) | JStr (x : str)
  | JList (l : list json) | JObj (kv : list (str * json)).

(** [d[k] = v] on a dictionary: an existing key keeps its place, a new
    key goes last. *)
Fixpoint dict_set {V} (d : list (str * V)) (k : str) (v : V) : list (str * V) :=
  match d with
  | [] => [(k, v)]
  | (k', v') :: t => if str_eqb k' k then (k, v) :: t else (k', v') :: dict_set t k v
  end.

(** [d.get(k)] *)
Fixpoint dict_get {V} (d : list (str * V)) (k : str) : option V :=
  match d with
  | [] => None
  | (k', v') :: t => if str_eqb k' k then Some v' else dict_get t k
  end.

Definition STEP_NAMES : list str :=
  map s ["start"; "batch[0]"; "batch[1]"; "batch[2]"; "batch[3]";
         "batch[4]"; "batch[5]"; "batch[6]"; "batch[7]"; "tree"; "finalize"]%string.

(** [tx_hash and tx_hash.startswith("0x")] *)
Definition keeps_tx (tx_hash : str) : bool :=
  match tx_hash with [] => false | _ => startswith tx_hash (s "0x") end.

(** [entry[k]] on a JSON object, [None] where Python raises. *)
Definition obj_get (j : json) (k : str) : option json :=
  match j with JObj kv => dict_get kv k | _ => None end.

(** The [for i, tx_hash in enumerate(tx_hashes)] loop of
    [populate_block], from index [i]. *)
Fixpoint collect (i : nat) (tx_hashes : list str) : res (list json) :=
  match tx_hashes with
  | [] => Ok []
  | tx_hash :: t =>
      if keeps_tx tx_hash then
        let* name := index STEP_NAMES i in
        let* rest := collect (S i) t in
        Ok (JObj [(s "step", JInt (Z.of_nat (i + 1))); (s "name", JStr name);
                  (s "txHash", JStr tx_hash); (s "time", JInt 0%Z)] :: rest)
      else collect (S i) t
  end.

(** [populate_block(block_num, tx_hashes, vid)] between [load_data()],
    which gives [data], and [save_data(data)], which writes the result. *)
Definition populate_block (data : list (str * json)) (block_num : Z) (tx_hashes : list str)
    (vid : str) : res (list (str * json)) :=
  let block_key := s "block_" ++ str_int block_num in
  let* transactions := collect 0 tx_hashes in
  Ok (dict_set data block_key
        (JObj [(s "verification_id", JStr vid); (s "transactions", JList transactions)])).

End PopulateTxs.

(** ** Sample inputs of the further properties *)
Module MoreSamples.

(** A stand-in for [hashlib.sha256] with 32-byte results. *)
Definition sha32 (b : bytes) : bytes := firstn 32 (b ++ repeat Byte.x00 32).

(** A [getblockheader] result without [previousblockhash] and
    [blockcommitments] and with an empty [nonce]. *)
Definition sample_rpc : FetchBlock.rpc_header :=
  {| FetchBlock.version := 4%Z;
     FetchBlock.previousblockhash := None;
     FetchBlock.merkleroot := s "79032b8a85663acddd601fd25371b7cb91f3ee6fbe68215f3cf6d4736bcbeea9";
     FetchBlock.blockcommitments := None;
     FetchBlock.time := 1477641360%Z;
     FetchBlock.bits := FetchBlock.BitsStr (s "1f07ffff");
     FetchBlock.nonce := Some [] |}.

Definition sample_blockhash : str :=
  s "1f44a356aacc3da60009c71135a7806841709e7a025bf43925b40a793973e6a8".



Definition sample_txids : list str :=
  [s "628b49d96dcde97a430dd4f597705899e09a968f793491e4b704cae33a40dc02";
   s "c44474038d459e40e4714afefa7bf8dae9f9834b22f5e8ec1dd434ecb62b512e";
   s "cece8a9cecfb6c7e7ee4f3346d5e2544138bfb6e33bec6042a17333a4d3180b0"].

(** The second id of [sample_txids] in upper case. *)
Definition sample_txid_upper : str :=
  s "C44474038D459E40E4714AFEFA7BF8DAE9F9834B22F5E8EC1DD434ECB62B512E".

(** A proof dictionary with one branch entry, and one whose digests
    outnumber its branch strings. *)
Definition sample_proof (digests : list (list Z)) : MerkleProofOutput.proof_result :=
  {| MerkleProofOutput.tx_id := s "ab";
     MerkleProofOutput.tx_id_internal := [];
     MerkleProofOutput.tx_id_digest := [1; 2]%Z;
     MerkleProofOutput.block_hash := s "cd";
     MerkleProofOutput.block_hash_internal := [];
     MerkleProofOutput.block_hash_digest := [3]%Z;
     MerkleProofOutput.merkle_root := [];
     MerkleProofOutput.merkle_root_internal := [];
     MerkleProofOutput.merkle_root_digest := [];
     MerkleProofOutput.merkle_branch := [s "ee"];
     MerkleProofOutput.merkle_branch_internal := [];
     MerkleProofOutput.merkle_branch_digests := digests;
     MerkleProofOutput.merkle_index := 0;
     MerkleProofOutput.tx_count := 1 |}.

End MoreSamples.

(** * Properties *)

(** ** Proof of work *)
Module PowProofs.

Open Scope Z_scope.

(** C3: [calculate_pow] decodes [bits] into mantissa and exponent, shifts
    the mantissa right by [8*(3-exponent)] bits when the exponent is at
    most 3 and left by [8*(exponent-3)] bits otherwise, and returns 0 for
    a zero target and [(2^256 - 1 - target) // (target + 1) + 1] for any
    other target, in unbounded integer arithmetic. *)
Theorem calculate_pow_formula (bits : Z) :
  let mantissa := Z.land bits 0xFFFFFF in
  let exponent := Z.land (Z.shiftr bits 24) 0xFF in
  let target := if exponent <=? 3
                then Z.shiftr mantissa (8 * (3 - exponent))
                else Z.shiftl mantissa (8 * (exponent - 3)) in
  Fetch.bits_target bits = target /\
  target = (if exponent <=? 3 then mantissa / 2 ^ (8 * (3 - exponent))
            else mantissa * 2 ^ (8 * (exponent - 3))) /\
  Fetch.calculate_pow bits =
    (if target =? 0 then 0 else (2 ^ 256 - 1 - target) / (target + 1) + 1).
Proof.
  cbv zeta. split; [reflexivity|]. split.
  - destruct (Z.land (Z.shiftr bits 24) 255 <=? 3) eqn:He.
    + apply Z.leb_le in He. apply Z.shiftr_div_pow2. lia.
    + apply Z.leb_gt in He. apply Z.shiftl_mul_pow2. lia.
  - unfold Fetch.calculate_pow, Fetch.bits_target. cbv zeta.
    rewrite (Z.shiftl_1_l 256). reflexivity.
Qed.

(** For a positive target the work is [2^256 // (target + 1)]. *)
Lemma calculate_pow_div (bits : Z) :
  0 < Fetch.bits_target bits ->
  Fetch.calculate_pow bits = 2 ^ 256 / (Fetch.bits_target bits + 1).
Proof.
  intros Hpos. unfold Fetch.calculate_pow. cbv zeta.
  destruct (Z.eqb_spec (Fetch.bits_target bits) 0) as [E|_]; [lia|].
  rewrite (Z.shiftl_1_l 256).
  set (t := Fetch.bits_target bits) in *.
  replace (2 ^ 256 - 1 - t) with (2 ^ 256 + (-1) * (t + 1)) by ring.
  rewrite Z.div_add by lia. ring.
Qed.

(** C7 (counterexample): a smaller target does not always give more work:
    bits [0] decodes to target 0 and work 0, below the work of bits
    [0x01010000] (target 1); bits [0x20800000] and [0x20800001] have
    different targets and the same work 1. *)
Lemma pow_monotonicity_counterexample :
  (Fetch.bits_target 0 < Fetch.bits_target 0x01010000 /\
   Fetch.calculate_pow 0 < Fetch.calculate_pow 0x01010000) /\
  (Fetch.bits_target 0x20800000 < Fetch.bits_target 0x20800001 /\
   Fetch.calculate_pow 0x20800000 = 1 /\ Fetch.calculate_pow 0x20800001 = 1).
Proof. vm_compute. repeat split; reflexivity. Qed.

(** C7 (amended): when the smaller of the two decoded targets is positive,
    the work of the smaller target is at least the work of the larger
    one. *)
Theorem pow_monotonicity (b1 b2 : Z) :
  0 < Fetch.bits_target b1 ->
  Fetch.bits_target b1 < Fetch.bits_target b2 ->
  Fetch.calculate_pow b2 <= Fetch.calculate_pow b1.
Proof.
  intros H1 H12.
  rewrite (calculate_pow_div b1 H1), (calculate_pow_div b2) by lia.
  apply Z.div_le_compat_l; lia.
Qed.

Lemma pow_monotonicity_witness :
  (0 < Fetch.bits_target 0x1d00ffff /\
   Fetch.bits_target 0x1d00ffff < Fetch.bits_target 0x1e00ffff) /\
  Fetch.calculate_pow 0x1e00ffff <= Fetch.calculate_pow 0x1d00ffff.
Proof.
  split; [vm_compute; split; reflexivity|].
  apply pow_monotonicity; vm_compute; reflexivity.
Defined.

End PowProofs.

(** ** Merkle trees *)
Module MerkleProofs.

Import MerkleProof.

(** C4: on three leaves [A], [B], [C], [build_merkle_tree] keeps the leaves
    as level 0, pairs [A] with [B] and [C] with a copy of itself in level
    1, and returns the hash of the two level-1 nodes as the root (and as
    the single node of level 2). *)
Theorem build_merkle_tree_three (sha256 : bytes -> bytes) (A B C : bytes) :
  let H := double_sha256 sha256 in
  build_merkle_tree sha256 [A; B; C] =
    (H (H (A ++ B) ++ H (C ++ C)),
     [[A; B; C]; [H (A ++ B); H (C ++ C)]; [H (H (A ++ B) ++ H (C ++ C))]]).
Proof. reflexivity. Qed.

End MerkleProofs.

(** ** Merkle branches *)
Module MerkleBranch.

Import MerkleProof MerkleLevels.

Lemma parity_cases (n : nat) :
  (n = 2 * (n / 2) /\ Nat.odd n = false /\ Nat.even n = true) \/
  (n = 2 * (n / 2) + 1 /\ Nat.odd n = true /\ Nat.even n = false).
Proof.
  destruct (Nat.Even_or_Odd n) as [[k Hk]|[k Hk]]; subst.
  - left. rewrite Nat.odd_even, Nat.even_even. split; [|auto]. lia.
  - right. rewrite Nat.odd_odd, Nat.even_odd. split; [|auto]. lia.
Qed.

Section Levels.

Variable sha256 : bytes -> bytes.

Lemma length_pad (l : list bytes) :
  length (pad l) = if Nat.odd (length l) then S (length l) else length l.
Proof.
  unfold pad. destruct (Nat.odd (length l)); [|reflexivity].
  rewrite length_app. simpl. lia.
Qed.

Lemma pad_length_even (l : list bytes) : length (pad l) = 2 * (length (pad l) / 2).
Proof.
  rewrite length_pad.
  destruct (parity_cases (length l)) as [[E [O _]]|[E [O _]]]; rewrite O; lia.
Qed.

Lemma pad_idem (l : list bytes) : pad (pad l) = pad l.
Proof.
  unfold pad at 1. pose proof (pad_length_even l) as E.
  destruct (parity_cases (length (pad l))) as [[_ [O _]]|[E' _]]; [now rewrite O|lia].
Qed.

Lemma nth_pad (l : list bytes) (i : nat) : i < length l -> nth i (pad l) [] = nth i l [].
Proof.
  intros Hi. unfold pad. destruct (Nat.odd (length l)); [|reflexivity].
  apply app_nth1. exact Hi.
Qed.

Lemma length_hash_pairs (l : list bytes) : length (hash_pairs sha256 l) = length l / 2.
Proof.
  induction l as [n IH] using (induction_ltof1 _ (@length bytes)).
  destruct n as [|a [|b t]]; [reflexivity|reflexivity|].
  cbn [hash_pairs length]. rewrite IH by (unfold ltof; cbn [length]; lia). lia.
Qed.

Lemma nth_hash_pairs (k : nat) (P : list bytes) :
  2 * k + 1 < length P ->
  nth k (hash_pairs sha256 P) [] = double_sha256 sha256 (nth (2 * k) P [] ++ nth (2 * k + 1) P []).
Proof.
  revert P. induction k as [|k IH]; intros P HP;
    destruct P as [|a [|b t]]; simpl in *; try lia.
  - reflexivity.
  - rewrite IH by lia.
    replace (k + S (k + 0)) with (S (2 * k)) by lia.
    replace (2 * k + 1) with (S (2 * k)) by lia. reflexivity.
Qed.

(** The node above position [idx] of a padded level is the hash of [idx]
    and its sibling, in index order. *)
Lemma nth_parent (P : list bytes) (idx : nat) :
  length P = 2 * (length P / 2) -> idx < length P ->
  let sibling := if Nat.even idx then idx + 1 else idx - 1 in
  sibling < length P /\
  nth (idx / 2) (hash_pairs sha256 P) [] =
    (if Nat.even idx
     then double_sha256 sha256 (nth idx P [] ++ nth sibling P [])
     else double_sha256 sha256 (nth sibling P [] ++ nth idx P [])).
Proof.
  intros HE Hi. cbv zeta.
  destruct (parity_cases idx) as [[Ei [_ Ev]]|[Ei [_ Ev]]]; rewrite Ev.
  - split; [lia|]. rewrite nth_hash_pairs by lia.
    rewrite <- Ei. reflexivity.
  - split; [lia|]. rewrite nth_hash_pairs by lia.
    replace (2 * (idx / 2) + 1) with idx by lia.
    replace (2 * (idx / 2)) with (idx - 1) by lia. reflexivity.
Qed.

Lemma next_level_length (current : list bytes) :
  1 < length current ->
  0 < length (hash_pairs sha256 (pad current)) < length current /\
  length (hash_pairs sha256 (pad current)) = (length current + 1) / 2.
Proof.
  intros H. rewrite length_hash_pairs, length_pad.
  destruct (parity_cases (length current)) as [[E [O _]]|[E [O _]]]; rewrite O; lia.
Qed.

Lemma removelast_cons2 {A} (a b : A) (l : list A) :
  removelast (a :: b :: l) = a :: removelast (b :: l).
Proof. reflexivity. Qed.

(** The pairing loop of [build_merkle_tree] returns the first node of the
    final level and the stored levels. *)
Lemma build_loop_spec (fuel : nat) (levels : list (list bytes)) (current : list bytes)
    (aliased : bool) :
  length current <= fuel ->
  build_loop sha256 fuel levels current aliased =
    (hd [] (final_level sha256 fuel current),
     settle levels current aliased ++ upper_levels sha256 fuel current).
Proof.
  revert levels current aliased.
  induction fuel as [|fuel IH]; intros levels current aliased Hl.
  - destruct current; [|simpl in Hl; lia].
    unfold settle. simpl. rewrite andb_false_r, app_nil_r. reflexivity.
  - cbn [build_loop final_level upper_levels].
    destruct (1 <? length current) eqn:Hc.
    + apply Nat.ltb_lt in Hc. pose proof (next_level_length current Hc) as [Hn _].
      rewrite IH by lia. f_equal.
      unfold settle at 1. rewrite andb_true_l.
      assert (Hs : (if aliased then removelast levels ++ [pad current] else levels)
                   = settle levels current aliased).
      { unfold settle. apply Nat.ltb_lt in Hc. rewrite Hc, andb_true_r. reflexivity. }
      rewrite Hs. destruct (1 <? length (hash_pairs sha256 (pad current))).
      * rewrite removelast_last, <- app_assoc. reflexivity.
      * rewrite <- app_assoc. reflexivity.
    + unfold settle. rewrite Hc, andb_false_r, app_nil_r. reflexivity.
Qed.

Lemma final_level_nonempty (fuel : nat) (current : list bytes) :
  current <> [] -> final_level sha256 fuel current <> [].
Proof.
  revert current. induction fuel as [|fuel IH]; intros current Hne; [exact Hne|].
  cbn [final_level]. destruct (1 <? length current) eqn:Hc; [|exact Hne].
  apply Nat.ltb_lt in Hc. pose proof (next_level_length current Hc) as [[Hp _] _].
  apply IH. intros E. rewrite E in Hp. simpl in Hp. lia.
Qed.

(** Folding the walked branch from the leaf at [idx] gives the root. *)
Lemma proof_walk_fold (fuel : nat) (current X : list bytes) (idx : nat) :
  length current <= fuel -> pad X = pad current -> idx < length current ->
  VerifyProof.fold_branch sha256 (nth idx current [])
    (proof_walk (removelast (X :: upper_levels sha256 fuel current)) idx) idx
  = hd [] (final_level sha256 fuel current).
Proof.
  revert current X idx.
  induction fuel as [|fuel IH]; intros current X idx Hl HX Hi; [lia|].
  cbn [upper_levels final_level].
  destruct (1 <? length current) eqn:Hc.
  - apply Nat.ltb_lt in Hc.
    pose proof (next_level_length current Hc) as [[Hn0 Hn1] Hn2].
    set (next := hash_pairs sha256 (pad current)) in *.
    rewrite removelast_cons2. cbn [proof_walk]. rewrite HX.
    assert (Hi' : idx < length (pad current)) by (rewrite length_pad; destruct (Nat.odd _); lia).
    pose proof (nth_parent (pad current) idx (pad_length_even current) Hi') as [Hs Hp].
    cbv zeta in Hs, Hp. apply Nat.ltb_lt in Hs. rewrite Hs. cbn [app VerifyProof.fold_branch].
    rewrite nth_pad in Hp by exact Hi.
    replace (if Nat.even idx then _ else _) with (nth (idx / 2) next []) by (rewrite <- Hp; reflexivity).
    apply IH; [lia| |lia].
    destruct (1 <? length next); [apply pad_idem|reflexivity].
  - apply Nat.ltb_ge in Hc.
    destruct current as [|a [|b t]]; simpl in Hi, Hc; try lia.
    replace idx with 0 by lia. reflexivity.
Qed.

Lemma pairs_hash_pairs (l : list bytes) : GetBlockTxs.pairs sha256 l = hash_pairs sha256 l.
Proof.
  induction l as [n IH] using (induction_ltof1 _ (@length bytes)).
  destruct n as [|a [|b t]]; [reflexivity|reflexivity|].
  cbn [GetBlockTxs.pairs hash_pairs]. rewrite IH by (unfold ltof; cbn [length]; lia).
  reflexivity.
Qed.

(** The in-place loop of [get-block-txs.py] collects the display hex of
    the siblings that [get_merkle_proof] of [merkle-proof.py] reads from
    its stored levels, and stops at the same final level. *)
Lemma proof_loop_spec (fuel : nat) (current X : list bytes) (idx : nat) :
  pad X = pad current ->
  GetBlockTxs.proof_loop sha256 fuel current idx =
    (map display_hex (proof_walk (removelast (X :: upper_levels sha256 fuel current)) idx),
     final_level sha256 fuel current).
Proof.
  revert current X idx.
  induction fuel as [|fuel IH]; intros current X idx HX; [reflexivity|].
  cbn [GetBlockTxs.proof_loop upper_levels final_level].
  destruct (1 <? length current) eqn:Hc; [|reflexivity].
  change (if Nat.odd (length current) then current ++ [last current []] else current)
    with (pad current).
  rewrite pairs_hash_pairs, removelast_cons2. cbn [proof_walk]. rewrite HX.
  rewrite (IH _ (if 1 <? length (hash_pairs sha256 (pad current))
                 then pad (hash_pairs sha256 (pad current))
                 else hash_pairs sha256 (pad current))).
  - rewrite map_app. f_equal. f_equal.
    destruct (_ <? length (pad current)); reflexivity.
  - destruct (1 <? length (hash_pairs sha256 (pad current))); [apply pad_idem|reflexivity].
Qed.

End Levels.

(** [get_merkle_proof] of [merkle-proof.py] walks the stored levels
    below the root. *)
Lemma get_merkle_proof_levels (sha256 : bytes -> bytes) (tx_hashes : list bytes) (idx : nat) :
  tx_hashes <> [] ->
  get_merkle_proof sha256 tx_hashes idx =
    (proof_walk (removelast (tx_hashes :: upper_levels sha256 (length tx_hashes) tx_hashes)) idx,
     hd [] (final_level sha256 (length tx_hashes) tx_hashes)).
Proof.
  intros Hne. unfold get_merkle_proof, build_merkle_tree.
  destruct tx_hashes as [|a t]; [contradiction|].
  rewrite build_loop_spec by lia. unfold settle. rewrite andb_false_l. reflexivity.
Qed.

End MerkleBranch.

(** ** Merkle trees: sizes, shapes and the empty list *)
Module MerkleExtras.

Import MerkleProof MerkleLevels MerkleBranch.

Lemma log2_up_half (n : nat) : 1 < n -> Nat.log2_up n = S (Nat.log2_up ((n + 1) / 2)).
Proof.
  intros Hn. set (m := (n + 1) / 2).
  assert (Hm : 2 * m = n + 1 \/ 2 * m = n)
    by (unfold m; pose proof (Nat.div_mod (n + 1) 2); pose proof (Nat.mod_upper_bound (n + 1) 2); lia).
  destruct (Nat.eq_dec m 1) as [E|E].
  - assert (n = 2) by lia. subst. rewrite E. reflexivity.
  - assert (1 < m) by lia.
    pose proof (Nat.log2_up_spec m ltac:(lia)) as [L U].
    pose proof (Nat.log2_up_pos m ltac:(lia)) as P.
    apply Nat.log2_up_unique; [lia|]. rewrite Nat.pow_succ_r'. split.
    + replace (pred (S (Nat.log2_up m))) with (Nat.log2_up m) by reflexivity.
      destruct (Nat.log2_up m) as [|b] eqn:Eb; [lia|]. cbn [pred] in L. rewrite Nat.pow_succ_r'. lia.
    + lia.
Qed.

Section Shapes.

Variable sha256 : bytes -> bytes.

Lemma proof_walk_length (fuel : nat) (current X : list bytes) (idx : nat) :
  length current <= fuel -> pad X = pad current -> idx < length current ->
  length (proof_walk (removelast (X :: upper_levels sha256 fuel current)) idx) =
    Nat.log2_up (length current).
Proof.
  revert current X idx.
  induction fuel as [|fuel IH]; intros current X idx Hl HX Hi; [lia|].
  cbn [upper_levels].
  destruct (1 <? length current) eqn:Hc.
  - apply Nat.ltb_lt in Hc.
    pose proof (next_level_length sha256 current Hc) as [[Hn0 Hn1] Hn2].
    set (next := hash_pairs sha256 (pad current)) in *.
    rewrite removelast_cons2. cbn [proof_walk]. rewrite HX.
    assert (Hi' : idx < length (pad current)) by (rewrite length_pad; destruct (Nat.odd _); lia).
    pose proof (nth_parent sha256 (pad current) idx (pad_length_even current) Hi') as [Hs _].
    cbv zeta in Hs. apply Nat.ltb_lt in Hs. rewrite Hs. rewrite length_app. cbn [length].
    rewrite IH; [| lia | | ].
    + rewrite Hn2, (log2_up_half (length current) Hc). reflexivity.
    + destruct (1 <? length next); [apply pad_idem|reflexivity].
    + rewrite Hn2. apply Nat.Div0.div_lt_upper_bound; lia.
  - apply Nat.ltb_ge in Hc.
    destruct current as [|a [|b t]]; simpl in Hi, Hc; try lia. reflexivity.
Qed.

Lemma final_level_single (fuel : nat) (current : list bytes) :
  length current <= fuel -> current <> [] -> exists r, final_level sha256 fuel current = [r].
Proof.
  revert current. induction fuel as [|fuel IH]; intros current Hl Hne.
  - destruct current; [contradiction|simpl in Hl; lia].
  - cbn [final_level]. destruct (1 <? length current) eqn:Hc.
    + apply Nat.ltb_lt in Hc. pose proof (next_level_length sha256 current Hc) as [[Hn0 Hn1] _].
      apply IH; [lia|]. intros E. rewrite E in Hn0. simpl in Hn0. lia.
    + apply Nat.ltb_ge in Hc. destruct current as [|a [|b t]]; simpl in Hc; try lia.
      * contradiction.
      * exists a. reflexivity.
Qed.

(** The levels above [current]: one per halving, the last one the root
    alone. *)
Lemma upper_levels_shape (fuel : nat) (current : list bytes) :
  length current <= fuel -> current <> [] ->
  length (upper_levels sha256 fuel current) = Nat.log2_up (length current) /\
  (1 < length current ->
   last (upper_levels sha256 fuel current) [] = final_level sha256 fuel current).
Proof.
  revert current. induction fuel as [|fuel IH]; intros current Hl Hne.
  - destruct current; [contradiction|simpl in Hl; lia].
  - cbn [upper_levels final_level]. destruct (1 <? length current) eqn:Hc.
    + apply Nat.ltb_lt in Hc. pose proof (next_level_length sha256 current Hc) as [[Hn0 Hn1] Hn2].
      set (next := hash_pairs sha256 (pad current)) in *.
      assert (Hne' : next <> []) by (intros E; rewrite E in Hn0; simpl in Hn0; lia).
      destruct (IH next ltac:(lia) Hne') as [IHl IHs].
      split.
      * cbn [length]. rewrite IHl, Hn2, (log2_up_half (length current) Hc). reflexivity.
      * intros _. destruct (1 <? length next) eqn:Hn.
        -- apply Nat.ltb_lt in Hn. specialize (IHs Hn).
           destruct (upper_levels sha256 fuel next) as [|u us] eqn:Eu.
           ++ cbn [length] in IHl. pose proof (Nat.log2_up_pos (length next) Hn). lia.
           ++ rewrite <- IHs. destruct u; reflexivity.
        -- apply Nat.ltb_ge in Hn.
           destruct next as [|a [|b t]] eqn:En; simpl in Hn; try lia; [contradiction|].
           destruct fuel as [|f]; [simpl in Hn1; lia|]. reflexivity.
    + apply Nat.ltb_ge in Hc. split.
      * destruct current as [|a [|b t]]; simpl in Hc; try lia; [contradiction|reflexivity].
      * lia.
Qed.

Lemma get_block_txs_levels (tx_hashes : list bytes) (idx : nat) :
  tx_hashes <> [] ->
  GetBlockTxs.get_merkle_proof sha256 tx_hashes idx =
    Ok (map display_hex (proof_walk (removelast (tx_hashes :: upper_levels sha256 (length tx_hashes) tx_hashes)) idx),
        hd [] (final_level sha256 (length tx_hashes) tx_hashes)).
Proof.
  intros Hne. unfold GetBlockTxs.get_merkle_proof.
  destruct (Nat.eqb_spec (length tx_hashes) 1) as [E1|E1].
  - destruct tx_hashes as [|a [|b t]]; simpl in E1; try lia. reflexivity.
  - rewrite (proof_loop_spec sha256 _ _ tx_hashes) by reflexivity.
    pose proof (final_level_nonempty sha256 (length tx_hashes) tx_hashes Hne) as Hf.
    destruct (final_level sha256 (length tx_hashes) tx_hashes) as [|r rest]; [contradiction|].
    reflexivity.
Qed.

End Shapes.

End MerkleExtras.

(** ** Merkle branches: the claims *)
Module MerkleClaims.

Import MerkleProof MerkleLevels MerkleBranch Samples.

(** C1: for every index [i] of a non-empty leaf list, folding the branch
    returned by [get_merkle_proof] from leaf [i] (hash of running value
    and sibling for an even running index, of sibling and running value
    for an odd one, index halved after each step) gives exactly the root
    it returns: [verifyProof] accepts. *)
Theorem get_merkle_proof_verifies (sha256 : bytes -> bytes) (leaves : list bytes) (i : nat) :
  i < length leaves ->
  VerifyProof.verifyProof sha256 (nth i leaves [])
    (fst (get_merkle_proof sha256 leaves i)) i (snd (get_merkle_proof sha256 leaves i)) = true.
Proof.
  intros Hi.
  assert (Hne : leaves <> []) by (intros E; subst; simpl in Hi; lia).
  rewrite get_merkle_proof_levels by exact Hne. cbn [fst snd].
  unfold VerifyProof.verifyProof.
  rewrite proof_walk_fold by (reflexivity || lia || assumption).
  destruct (list_eq_dec _ _ _) as [_|N]; [reflexivity|contradiction].
Qed.

Lemma get_merkle_proof_verifies_witness :
  3 < length leaves5 /\
  VerifyProof.verifyProof toy_sha256 (nth 3 leaves5 [])
    (fst (get_merkle_proof toy_sha256 leaves5 3)) 3
    (snd (get_merkle_proof toy_sha256 leaves5 3)) = true.
Proof. split; [simpl; lia | apply get_merkle_proof_verifies; simpl; lia]. Defined.

(** C10: on every non-empty leaf list and every index, [get_merkle_proof]
    of [get-block-txs.py] returns the root of [get_merkle_proof] of
    [merkle-proof.py], and as branch the same siblings in the same order,
    each written as the hex of its reversed bytes. *)
Theorem get_merkle_proof_equivalent (sha256 : bytes -> bytes) (tx_hashes : list bytes) (idx : nat) :
  tx_hashes <> [] ->
  GetBlockTxs.get_merkle_proof sha256 tx_hashes idx =
    Ok (map display_hex (fst (get_merkle_proof sha256 tx_hashes idx)),
        snd (get_merkle_proof sha256 tx_hashes idx)).
Proof.
  intros Hne. rewrite get_merkle_proof_levels by exact Hne. cbn [fst snd].
  unfold GetBlockTxs.get_merkle_proof.
  destruct (Nat.eqb_spec (length tx_hashes) 1) as [E1|E1].
  - destruct tx_hashes as [|a [|b t]]; simpl in E1; try lia. reflexivity.
  - rewrite (proof_loop_spec sha256 _ _ tx_hashes) by reflexivity.
    pose proof (final_level_nonempty sha256 (length tx_hashes) tx_hashes Hne) as Hf.
    destruct (final_level sha256 (length tx_hashes) tx_hashes) as [|r rest]; [contradiction|].
    reflexivity.
Qed.

Lemma get_merkle_proof_equivalent_witness :
  leaves5 <> [] /\
  GetBlockTxs.get_merkle_proof toy_sha256 leaves5 4 =
    Ok (map display_hex (fst (get_merkle_proof toy_sha256 leaves5 4)),
        snd (get_merkle_proof toy_sha256 leaves5 4)).
Proof. split; [discriminate | apply get_merkle_proof_equivalent; discriminate]. Defined.

End MerkleClaims.

(** ** Hexadecimal text and bytes *)
Module HexProofs.

Import HexText.

Lemma hexval_hex_digit (h : nat) : h < 16 -> hexval (hex_digit h) = Some h.
Proof. intros H. do 16 (destruct h as [|h]; [reflexivity|]). lia. Qed.

Lemma hex_digit_lower (h : nat) : h < 16 -> is_lower_hex_char (hex_digit h) = true.
Proof. intros H. do 16 (destruct h as [|h]; [reflexivity|]). lia. Qed.

Lemma lower_hex_char_digit (c : ascii) :
  is_lower_hex_char c = true -> exists h, hexval c = Some h /\ h < 16 /\ hex_digit h = c.
Proof.
  intros H. destruct c as [[] [] [] [] [] [] [] []]; try discriminate H;
    eexists; (split; [reflexivity|split; [apply Nat.ltb_lt; reflexivity|reflexivity]]).
Qed.

Lemma hex_char_value (c : ascii) :
  is_hex_char c = true -> exists h, hexval c = Some h /\ h < 16.
Proof.
  intros H. destruct c as [[] [] [] [] [] [] [] []]; try discriminate H;
    eexists; (split; [reflexivity|apply Nat.ltb_lt; reflexivity]).
Qed.

Lemma lower_hex_char_hex (c : ascii) : is_lower_hex_char c = true -> is_hex_char c = true.
Proof. unfold is_lower_hex_char, is_hex_char. intros H. rewrite H. reflexivity. Qed.

Lemma hexval_not_space (c : ascii) (h : nat) : hexval c = Some h -> is_space c = false.
Proof.
  intros H. destruct c as [[] [] [] [] [] [] [] []];
    first [reflexivity | discriminate H].
Qed.

Lemma hex_char_not_x (c : ascii) : is_hex_char c = true -> (nat_of_ascii c =? 120) = false.
Proof.
  unfold is_hex_char. intros H. apply Nat.eqb_neq.
  repeat rewrite orb_true_iff in H. repeat rewrite andb_true_iff in H.
  rewrite !Nat.leb_le in H. lia.
Qed.

(** [replace("0x", "")] leaves text without an [x] unchanged. *)
Lemma replace_0x_hex (l : str) : forallb is_hex_char l = true -> replace_0x l = l.
Proof.
  induction l as [|c t IH]; intros H; [reflexivity|].
  simpl in H. apply andb_true_iff in H as [Hc Ht].
  destruct t as [|d r]; [reflexivity|].
  change (replace_0x (c :: d :: r)) with
    (if (nat_of_ascii c =? 48) && (nat_of_ascii d =? 120) then replace_0x r
     else c :: replace_0x (d :: r)).
  assert (Hd : is_hex_char d = true)
    by (simpl in Ht; apply andb_true_iff in Ht; tauto).
  rewrite (hex_char_not_x d Hd), andb_false_r, (IH Ht). reflexivity.
Qed.

Lemma byte_Z_nat (b : Byte.byte) : byte_Z b = Z.of_nat (Byte.to_nat b).
Proof. unfold byte_Z. rewrite Byte.to_N_via_nat. apply nat_N_Z. Qed.

Lemma byte_Z_bound (b : Byte.byte) : (0 <= byte_Z b <= 255)%Z.
Proof. rewrite byte_Z_nat. pose proof (Byte.to_nat_bounded b). lia. Qed.

Lemma byte_hex_pair (h1 h2 : nat) :
  h1 < 16 -> h2 < 16 ->
  exists b, Byte.of_nat (16 * h1 + h2) = Some b /\
            byte_hex b = [hex_digit h1; hex_digit h2].
Proof.
  intros H1 H2. destruct (Byte.of_nat (16 * h1 + h2)) as [b|] eqn:E.
  - exists b. split; [reflexivity|]. apply Byte.to_of_nat in E.
    unfold byte_hex. rewrite E. f_equal; [|f_equal]; f_equal; lia.
  - apply Byte.of_nat_None_iff in E. lia.
Qed.

Lemma fromhex_byte_hex (b : Byte.byte) (rest : str) :
  fromhex_aux (byte_hex b ++ rest) = option_map (cons b) (fromhex_aux rest).
Proof.
  unfold byte_hex. pose proof (Byte.to_nat_bounded b) as Hb.
  assert (Hhi : Byte.to_nat b / 16 < 16) by lia.
  assert (Hlo : Byte.to_nat b mod 16 < 16) by lia.
  cbn [app fromhex_aux].
  rewrite (hexval_not_space _ _ (hexval_hex_digit _ Hhi)).
  rewrite (hexval_hex_digit _ Hhi), (hexval_hex_digit _ Hlo).
  replace (16 * (Byte.to_nat b / 16) + Byte.to_nat b mod 16) with (Byte.to_nat b) by lia.
  rewrite Byte.of_to_nat. destruct (fromhex_aux rest); reflexivity.
Qed.

Lemma bytes_hex_cons (b : Byte.byte) (bs : bytes) :
  bytes_hex (b :: bs) = byte_hex b ++ bytes_hex bs.
Proof. reflexivity. Qed.

(** [bytes.fromhex(b.hex()) == b] *)
Lemma fromhex_bytes_hex (bs : bytes) : fromhex_aux (bytes_hex bs) = Some bs.
Proof.
  induction bs as [|b t IH]; [reflexivity|].
  rewrite bytes_hex_cons, fromhex_byte_hex, IH. reflexivity.
Qed.

(** Hexadecimal text of even length decodes, to half as many bytes, whose
    [hex()] is the text itself when it is in lower case. *)
Lemma fromhex_hex_text (n : nat) (x : str) :
  length x = 2 * n -> forallb is_hex_char x = true ->
  exists d, fromhex_aux x = Some d /\ length d = n /\
            (forallb is_lower_hex_char x = true -> bytes_hex d = x).
Proof.
  revert x. induction n as [|n IH]; intros x Hl Hx.
  - destruct x; [|simpl in Hl; lia]. exists []. repeat split.
  - destruct x as [|c1 [|c2 r]]; simpl in Hl; try lia.
    simpl in Hx. apply andb_true_iff in Hx as [H1 Hx]. apply andb_true_iff in Hx as [H2 Hr].
    destruct (hex_char_value c1 H1) as [h1 [E1 L1]].
    destruct (hex_char_value c2 H2) as [h2 [E2 L2]].
    destruct (IH r ltac:(lia) Hr) as [d [Ed [Ld Hd]]].
    destruct (byte_hex_pair h1 h2 L1 L2) as [b [Eb Hb]].
    exists (b :: d). cbn [fromhex_aux].
    rewrite (hexval_not_space _ _ E1), E1, E2, Eb, Ed.
    split; [reflexivity|]. split; [simpl; lia|].
    intros Hlow. simpl in Hlow. apply andb_true_iff in Hlow as [K1 Hlow].
    apply andb_true_iff in Hlow as [K2 Kr].
    rewrite bytes_hex_cons, Hb, (Hd Kr).
    destruct (lower_hex_char_digit c1 K1) as [g1 [F1 [_ G1]]].
    destruct (lower_hex_char_digit c2 K2) as [g2 [F2 [_ G2]]].
    rewrite E1 in F1. rewrite E2 in F2. injection F1 as <-. injection F2 as <-.
    rewrite G1, G2. reflexivity.
Qed.

Lemma length_bytes_hex (bs : bytes) : length (bytes_hex bs) = 2 * length bs.
Proof. induction bs as [|b t IH]; [reflexivity|]. simpl. rewrite IH. lia. Qed.

Lemma skipn_bytes_hex (n : nat) (bs : bytes) :
  skipn (2 * n) (bytes_hex bs) = bytes_hex (skipn n bs).
Proof.
  revert bs. induction n as [|n IH]; intros bs; [reflexivity|].
  destruct bs as [|b t]; [rewrite !skipn_nil; reflexivity|].
  replace (2 * S n) with (S (S (2 * n))) by lia. apply IH.
Qed.

Lemma firstn_bytes_hex (n : nat) (bs : bytes) :
  firstn (2 * n) (bytes_hex bs) = bytes_hex (firstn n bs).
Proof.
  revert bs. induction n as [|n IH]; intros bs; [reflexivity|].
  destruct bs as [|b t]; [rewrite !firstn_nil; reflexivity|].
  replace (2 * S n) with (S (S (2 * n))) by lia.
  simpl. rewrite IH. reflexivity.
Qed.

Lemma int16_aux_app (acc : Z) (l1 l2 : str) :
  int16_aux acc (l1 ++ l2) =
    match int16_aux acc l1 with Some a => int16_aux a l2 | None => None end.
Proof.
  revert acc. induction l1 as [|c t IH]; intros acc; [reflexivity|].
  simpl. destruct (hexval c); [apply IH|reflexivity].
Qed.

Lemma int16_aux_bytes_hex (acc : Z) (bs : bytes) :
  int16_aux acc (bytes_hex bs) = Some (fold_left (fun a b => a * 256 + byte_Z b)%Z bs acc).
Proof.
  revert acc. induction bs as [|b t IH]; intros acc; [reflexivity|].
  rewrite bytes_hex_cons, int16_aux_app. unfold byte_hex.
  pose proof (Byte.to_nat_bounded b) as Hb.
  cbn [int16_aux]. rewrite !hexval_hex_digit by lia.
  rewrite IH. cbn [fold_left]. do 2 f_equal. rewrite byte_Z_nat. lia.
Qed.

Lemma from_little_app (l1 l2 : bytes) :
  from_bytes_little (l1 ++ l2) =
    (from_bytes_little l1 + 256 ^ Z.of_nat (length l1) * from_bytes_little l2)%Z.
Proof.
  induction l1 as [|b t IH]; [cbn [app from_bytes_little length]; rewrite Z.pow_0_r; ring|].
  cbn [app from_bytes_little length]. rewrite IH, Nat2Z.inj_succ, Z.pow_succ_r by lia. ring.
Qed.

Lemma from_little_bound (bs : bytes) :
  (0 <= from_bytes_little bs < 256 ^ Z.of_nat (length bs))%Z.
Proof.
  induction bs as [|b t IH]; [cbn [from_bytes_little length]; rewrite Z.pow_0_r; lia|].
  cbn [from_bytes_little length]. rewrite Nat2Z.inj_succ, Z.pow_succ_r by lia.
  pose proof (byte_Z_bound b). lia.
Qed.

Lemma fold_big (acc : Z) (bs : bytes) :
  fold_left (fun a b => a * 256 + byte_Z b)%Z bs acc =
    (acc * 256 ^ Z.of_nat (length bs) + from_bytes_big bs)%Z.
Proof.
  revert acc. induction bs as [|b t IH]; intros acc.
  - unfold from_bytes_big. cbn [fold_left length rev from_bytes_little].
    rewrite Z.pow_0_r. ring.
  - cbn [fold_left length]. rewrite IH. unfold from_bytes_big. cbn [rev].
    rewrite from_little_app, length_rev. cbn [from_bytes_little].
    rewrite Nat2Z.inj_succ, Z.pow_succ_r by lia. unfold from_bytes_big. ring.
Qed.

(** [int(b.hex(), 16) == int.from_bytes(b, 'big')] for non-empty [b]. *)
Lemma int16_bytes_hex (bs : bytes) : bs <> [] -> int16 (bytes_hex bs) = Ok (from_bytes_big bs).
Proof.
  intros Hne. unfold int16.
  pose proof (int16_aux_bytes_hex 0 bs) as E. rewrite fold_big in E.
  destruct (bytes_hex bs) as [|c r] eqn:Eh.
  - destruct bs; [contradiction|discriminate Eh].
  - rewrite E, Z.mul_0_l, Z.add_0_l. reflexivity.
Qed.

Lemma int16_aux_zeros (n : nat) : int16_aux 0 (repeat "0"%char n) = Some 0%Z.
Proof. induction n as [|n IH]; [reflexivity|]. exact IH. Qed.

Lemma hex_min_aux_value (fuel : nat) (v : Z) :
  (0 <= v < 16 ^ Z.of_nat fuel)%Z ->
  int16_aux 0 (hex_min_aux fuel v) = Some v /\
  forallb is_lower_hex_char (hex_min_aux fuel v) = true.
Proof.
  revert v. induction fuel as [|f IH]; intros v Hv.
  - rewrite Z.pow_0_r in Hv. replace v with 0%Z by lia. split; reflexivity.
  - cbn [hex_min_aux]. destruct (Z.ltb_spec v 16) as [Hs|Hs].
    + assert (Hn : Z.to_nat v < 16) by lia.
      cbn [int16_aux forallb]. rewrite hexval_hex_digit, hex_digit_lower by exact Hn.
      split; [f_equal; lia|reflexivity].
    + rewrite Nat2Z.inj_succ, Z.pow_succ_r in Hv by lia.
      destruct (IH (v / 16)%Z) as [E F]; [split; [apply Z.div_pos; lia|apply Z.div_lt_upper_bound; lia]|].
      assert (Hm : Z.to_nat (v mod 16) < 16) by (pose proof (Z.mod_pos_bound v 16); lia).
      rewrite int16_aux_app, E, forallb_app, F. cbn [int16_aux forallb].
      rewrite hexval_hex_digit, hex_digit_lower by exact Hm.
      split; [f_equal; pose proof (Z.div_mod v 16); pose proof (Z.mod_pos_bound v 16); lia|reflexivity].
Qed.

Lemma hex_min_aux_length (fuel : nat) (v : Z) (k : nat) :
  (0 <= v < 16 ^ Z.of_nat k)%Z -> 1 <= k -> length (hex_min_aux fuel v) <= k.
Proof.
  revert v k. induction fuel as [|f IH]; intros v k Hv Hk; [simpl; lia|].
  cbn [hex_min_aux]. destruct (Z.ltb_spec v 16) as [Hs|Hs]; [simpl; lia|].
  rewrite length_app. cbn [length].
  destruct k as [|[|k]]; [lia| |].
  - simpl in Hv. lia.
  - rewrite Nat2Z.inj_succ, Z.pow_succ_r in Hv by lia.
    enough (length (hex_min_aux f (v / 16)) <= S k) by lia.
    apply IH; [split; [apply Z.div_pos; lia|apply Z.div_lt_upper_bound; lia]|lia].
Qed.

Lemma hex_min_fuel (v : Z) : (0 <= v)%Z -> (v < 16 ^ Z.of_nat (S (Z.to_nat (Z.log2 v))))%Z.
Proof.
  intros Hv. pose proof (Z.log2_nonneg v) as Hl.
  rewrite Nat2Z.inj_succ, Z2Nat.id by lia.
  apply Z.lt_le_trans with (2 ^ Z.succ (Z.log2 v))%Z.
  - destruct (Z.eq_dec v 0) as [->|Hne]; [reflexivity|].
    apply Z.log2_spec. lia.
  - apply Z.pow_le_mono_l. lia.
Qed.

(** [f"{v:056x}"] of a value below [2^224] is exactly 56 lower-case hex
    digits that denote [v]. *)
Lemma format_056x_spec (v : Z) :
  (0 <= v < 2 ^ 224)%Z ->
  length (format_056x v) = 56 /\
  forallb is_lower_hex_char (format_056x v) = true /\
  int16_aux 0 (format_056x v) = Some v.
Proof.
  intros Hv. unfold format_056x, hex_min. cbv zeta.
  set (d := hex_min_aux (S (Z.to_nat (Z.log2 v))) v).
  assert (Hfuel := hex_min_fuel v ltac:(lia)).
  destruct (hex_min_aux_value (S (Z.to_nat (Z.log2 v))) v ltac:(lia)) as [E F]. fold d in E, F.
  assert (Ld : length d <= 56).
  { apply hex_min_aux_length; [|lia]. change (16 ^ Z.of_nat 56)%Z with (2 ^ 224)%Z. lia. }
  rewrite length_app, repeat_length, forallb_app, int16_aux_app, int16_aux_zeros, E, F.
  split; [lia|]. split; [|reflexivity].
  rewrite andb_true_r. clear. induction (56 - length d) as [|n IH]; [reflexivity|exact IH].
Qed.

Lemma lower_hex_text_hex (x : str) :
  forallb is_lower_hex_char x = true -> forallb is_hex_char x = true.
Proof.
  rewrite !forallb_forall. intros H c Hc. apply lower_hex_char_hex, H, Hc.
Qed.

End HexProofs.

(** ** Display and internal byte order, verification identifiers *)
Module DigestClaims.

Import HexText HexProofs.

(** C8 (counterexample): a 64-character upper-case digest does not come
    back unchanged, since [bytes.hex()] writes lower case. *)
Lemma display_roundtrip_counterexample :
  (let x := repeat "A"%char 64 in
   length x = 64 /\ forallb is_hex_char x = true /\
   (let* b := MerkleProof.internal_bytes x in Ok (MerkleProof.display_hex b)) <> Ok x).
Proof. vm_compute. split; [reflexivity|split; [reflexivity|discriminate]]. Qed.

(** C8 (amended): a 64-character lower-case hexadecimal digest, converted
    to internal bytes ([replace("0x", "")], [zfill(64)], [fromhex],
    reversal) and back to display form (reversal, [hex()]), is returned
    unchanged. *)
Theorem display_roundtrip (x : str) :
  length x = 64 -> forallb is_lower_hex_char x = true ->
  (let* b := MerkleProof.internal_bytes x in Ok (MerkleProof.display_hex b)) = Ok x.
Proof.
  intros Hl Hx. pose proof (lower_hex_text_hex x Hx) as Hh.
  unfold MerkleProof.internal_bytes. rewrite (replace_0x_hex x Hh).
  unfold zfill. rewrite Hl. cbn [Nat.leb].
  destruct (fromhex_hex_text 32 x ltac:(lia) Hh) as [d [Ed [_ Hd]]].
  unfold bytes_fromhex. rewrite Ed. cbn [bind].
  unfold MerkleProof.display_hex. rewrite rev_involutive, (Hd Hx). reflexivity.
Qed.

Lemma display_roundtrip_witness :
  (let x := repeat "a"%char 64 in
   (length x = 64 /\ forallb is_lower_hex_char x = true) /\
   (let* b := MerkleProof.internal_bytes x in Ok (MerkleProof.display_hex b)) = Ok x).
Proof.
  cbv zeta. split; [split; reflexivity|].
  apply display_roundtrip; reflexivity.
Defined.

Lemma chunk_int16 (r : bytes) (j : nat) :
  j + 4 <= length r ->
  int16 (firstn 8 (skipn (2 * j) (bytes_hex r))) = Ok (from_bytes_big (firstn 4 (skipn j r))).
Proof.
  intros Hj. rewrite skipn_bytes_hex. change 8 with (2 * 4). rewrite firstn_bytes_hex.
  apply int16_bytes_hex. intros E.
  assert (L : length (firstn 4 (skipn j r)) = 4) by (rewrite length_firstn, length_skipn; lia).
  rewrite E in L. discriminate L.
Qed.

Lemma res_map_chunks (r : bytes) (js : list nat) :
  Forall (fun j => j + 4 <= length r) js ->
  res_map (fun i => int16 (firstn 8 (skipn i (bytes_hex r)))) (map (fun j => 2 * j) js) =
    Ok (map (fun j => from_bytes_big (firstn 4 (skipn j r))) js).
Proof.
  induction 1 as [|j js Hj _ IH]; [reflexivity|].
  cbn [map res_map]. rewrite chunk_int16 by exact Hj. cbn [bind]. rewrite IH. reflexivity.
Qed.

Lemma word_bound (r : bytes) (j : nat) :
  j + 4 <= length r -> (0 <= from_bytes_big (firstn 4 (skipn j r)) < 2 ^ 32)%Z.
Proof.
  intros Hj. unfold from_bytes_big.
  pose proof (from_little_bound (rev (firstn 4 (skipn j r)))) as B.
  rewrite length_rev, length_firstn, length_skipn in B.
  replace (Init.Nat.min 4 (length r - j)) with 4 in B by lia. exact B.
Qed.

Lemma fold_words_bound (ws : list Z) (acc : Z) :
  (0 <= acc)%Z -> Forall (fun w => 0 <= w < 2 ^ 32)%Z ws ->
  (0 <= fold_left (fun result w => result * 0x100000000 + w)%Z ws acc
     < (acc + 1) * 2 ^ (32 * Z.of_nat (length ws)))%Z.
Proof.
  intros Ha Hw. revert acc Ha. induction Hw as [|w ws Hw _ IH]; intros acc Ha.
  - cbn [fold_left length]. rewrite Z.mul_0_r, Z.pow_0_r. lia.
  - cbn [fold_left length]. change 0x100000000%Z with (2 ^ 32)%Z.
    destruct (IH (acc * 2 ^ 32 + w)%Z ltac:(lia)) as [L U].
    split; [exact L|].
    rewrite Nat2Z.inj_succ, Z.mul_succ_r, Z.pow_add_r by lia.
    eapply Z.lt_le_trans; [exact U|].
    assert (P : (0 < 2 ^ (32 * Z.of_nat (length ws)))%Z) by (apply Z.pow_pos_nonneg; lia).
    set (q := (2 ^ (32 * Z.of_nat (length ws)))%Z) in *. nia.
Qed.

(** C9: for every 64-hex-digit display-form block hash, both copies of the
    identifier computation ([compute_verification_id_from_block_hash] and
    the printed line of [compute-verification-id.py], and
    [compute_verification_id] of [format-block-calldata.py]) fold the
    first seven big-endian 32-bit words of the internal-form bytes as
    [result * 2^32 + word], dropping the eighth; the value is below
    [2^224] and is printed after [0x] as exactly 56 lower-case hex digits
    denoting it. *)
Theorem verification_id_packing (x : str) :
  length x = 64 -> forallb is_hex_char x = true ->
  exists d, bytes_fromhex x = Ok d /\ length d = 32 /\
  let v := fold_left (fun result w => result * 2 ^ 32 + w)%Z
             (firstn 7 (MerkleProof.digest_words (rev d))) 0%Z in
  ComputeVerificationId.compute_verification_id_from_block_hash x = Ok v /\
  ComputeVerificationId.main_output x = Ok (s "0x" ++ format_056x v) /\
  FormatBlockCalldata.compute_verification_id x = Ok (s "0x" ++ format_056x v) /\
  (0 <= v < 2 ^ 224)%Z /\
  length (format_056x v) = 56 /\ forallb is_lower_hex_char (format_056x v) = true /\
  int16_aux 0 (format_056x v) = Some v.
Proof.
  intros Hl Hx.
  destruct (fromhex_hex_text 32 x ltac:(lia) Hx) as [d [Ed [Ld _]]].
  exists d. unfold bytes_fromhex. rewrite Ed. split; [reflexivity|]. split; [exact Ld|].
  set (r := rev d).
  assert (Lr : length r = 32) by (unfold r; rewrite length_rev; exact Ld).
  assert (Hall : Forall (fun j => j + 4 <= length r) [0; 4; 8; 12; 16; 20; 24; 28])
    by (rewrite Lr; repeat constructor; lia).
  pose proof (res_map_chunks r _ Hall) as Hm. cbn [map] in Hm. cbn [Nat.mul Nat.add] in Hm.
  change 0x100000000%Z with (2 ^ 32)%Z.
  set (v := fold_left (fun result w => result * 2 ^ 32 + w)%Z
              (firstn 7 (MerkleProof.digest_words r)) 0%Z).
  assert (Hv : (0 <= v < 2 ^ 224)%Z).
  { pose proof (fold_words_bound (firstn 7 (MerkleProof.digest_words r)) 0 ltac:(lia)) as B.
    unfold MerkleProof.digest_words in B. cbn [map firstn length] in B.
    change 0x100000000%Z with (2 ^ 32)%Z in B.
    assert (W : Forall (fun w => 0 <= w < 2 ^ 32)%Z
               (map (fun i => from_bytes_big (firstn 4 (skipn i r))) [0; 4; 8; 12; 16; 20; 24]))
      by (cbn [map]; repeat constructor; apply word_bound; lia).
    cbn [map] in W. specialize (B W). unfold v, MerkleProof.digest_words.
    cbn [map firstn]. simpl (32 * Z.of_nat 7)%Z in B. lia. }
  destruct (format_056x_spec v Hv) as [F1 [F2 F3]].
  unfold ComputeVerificationId.main_output, ComputeVerificationId.compute_verification_id_from_block_hash,
    FormatBlockCalldata.compute_verification_id.
  rewrite (replace_0x_hex x Hx). unfold bytes_fromhex. rewrite Ed. cbn [bind]. fold r.
  rewrite Hm. cbn [bind]. change 0x100000000%Z with (2 ^ 32)%Z.
  repeat split; first [assumption | reflexivity | lia].
Qed.

Lemma verification_id_packing_witness :
  let x := s "00040fe8ec8471911baa1db1266ea15dd06b4a8a5c453883c000b031973dce08" in
  (length x = 64 /\ forallb is_hex_char x = true) /\
  exists d, bytes_fromhex x = Ok d /\ length d = 32 /\
  let v := fold_left (fun result w => result * 2 ^ 32 + w)%Z
             (firstn 7 (MerkleProof.digest_words (rev d))) 0%Z in
  ComputeVerificationId.compute_verification_id_from_block_hash x = Ok v /\
  ComputeVerificationId.main_output x = Ok (s "0x" ++ format_056x v) /\
  FormatBlockCalldata.compute_verification_id x = Ok (s "0x" ++ format_056x v) /\
  (0 <= v < 2 ^ 224)%Z /\
  length (format_056x v) = 56 /\ forallb is_lower_hex_char (format_056x v) = true /\
  int16_aux 0 (format_056x v) = Some v.
Proof.
  cbv zeta. split; [split; reflexivity|].
  apply verification_id_packing; reflexivity.
Defined.

End DigestClaims.

(** ** Header serialization and block-hash verification *)
Module FetchClaims.

Import Fetch HexText HexProofs Samples.

Lemma pack_I_ok (v : Z) : (0 <= v < 2 ^ 32)%Z -> pack_I v = Ok (le_bytes 4 v).
Proof.
  intros H. unfold pack_I.
  replace ((0 <=? v)%Z && (v <? 2 ^ 32)%Z) with true; [reflexivity|].
  symmetry. apply andb_true_intro. split; [apply Z.leb_le | apply Z.ltb_lt]; lia.
Qed.

Lemma to_bytes_little_ok (v : Z) (w : nat) :
  (0 <= v < 2 ^ (8 * Z.of_nat w))%Z -> to_bytes_little v w = Ok (le_bytes w v).
Proof.
  intros H. unfold to_bytes_little.
  replace (v <? 0)%Z with false by (symmetry; apply Z.ltb_ge; lia).
  replace (2 ^ (8 * Z.of_nat w) <=? v)%Z with false by (symmetry; apply Z.leb_gt; lia).
  reflexivity.
Qed.

Lemma skipn_nth_error {A} (l : list A) (k : nat) (x : A) :
  nth_error l k = Some x -> skipn k l = x :: skipn (S k) l.
Proof.
  revert l. induction k as [|k IH]; intros [|y l] H; try discriminate H.
  - injection H as ->. reflexivity.
  - cbn [skipn]. apply IH. exact H.
Qed.

Lemma byte_of_Z_byte (b : Byte.byte) (k : Z) : byte_of_Z (byte_Z b + 256 * k) = b.
Proof.
  unfold byte_of_Z. rewrite Z.mul_comm, Z.mod_add by lia.
  rewrite Z.mod_small by (pose proof (byte_Z_bound b); lia).
  unfold byte_Z. rewrite N2Z.id, Byte.of_to_N. reflexivity.
Qed.

(** [struct.pack('<H', struct.unpack('<H', b)[0])] gives back [b]. *)
Lemma pack_unpack_H (b1 b2 : Byte.byte) :
  (let* v := unpack_H [b1; b2] in pack_H v) = Ok [b1; b2].
Proof.
  unfold unpack_H. cbn [length Nat.eqb bind from_bytes_little].
  pose proof (byte_Z_bound b1). pose proof (byte_Z_bound b2).
  unfold pack_H.
  replace ((0 <=? byte_Z b1 + 256 * (byte_Z b2 + 256 * 0))%Z &&
           (byte_Z b1 + 256 * (byte_Z b2 + 256 * 0) <? 2 ^ 16)%Z) with true
    by (symmetry; apply andb_true_intro; split; [apply Z.leb_le | apply Z.ltb_lt]; lia).
  cbn [le_bytes]. rewrite byte_of_Z_byte.
  replace ((byte_Z b1 + 256 * (byte_Z b2 + 256 * 0)) / 256)%Z with (byte_Z b2 + 256 * 0)%Z
    by (apply Z.div_unique with (byte_Z b1); lia).
  rewrite byte_of_Z_byte. reflexivity.
Qed.

Lemma byte_253 (m : Byte.byte) : Byte.to_nat m = 253 -> m = Byte.xfd.
Proof.
  intros E. pose proof (Byte.of_to_nat m) as H. rewrite E in H.
  injection H as H. symmetry. exact H.
Qed.

(** The part of [serialize_header] before the solution field: when the
    header fields are in range and the hex strings decode, the function
    reaches the marker byte with the 140 fixed bytes built. *)
Lemma serialize_header_prefix (h : header) (raw_block_hex : str)
    (raw prev merkle commit : bytes) :
  (0 <= n_version h < 2 ^ 32)%Z -> (0 <= n_time h < 2 ^ 32)%Z ->
  (0 <= n_bits h < 2 ^ 32)%Z -> (0 <= n_nonce h < 2 ^ 256)%Z ->
  bytes_fromhex raw_block_hex = Ok raw ->
  bytes_fromhex (hex (hash_prev_block h)) = Ok prev ->
  bytes_fromhex (hex (hash_merkle_root h)) = Ok merkle ->
  bytes_fromhex (hex (hash_block_commitments h)) = Ok commit ->
  serialize_header h raw_block_hex =
    (let serialized := le_bytes 4 (n_version h) ++ prev ++ merkle ++ commit
                       ++ le_bytes 4 (n_time h) ++ le_bytes 4 (n_bits h)
                       ++ le_bytes 32 (n_nonce h) in
     let* solution_length := index raw 140 in
     let n := Byte.to_nat solution_length in
     if n <? 253 then
       Ok (serialized ++ [solution_length] ++ firstn n (skipn 141 raw))
     else if n =? 253 then
       let* length := unpack_H (firstn 2 (skipn 141 raw)) in
       let* length_bytes := pack_H length in
       Ok (serialized ++ [Byte.xfd] ++ length_bytes ++ firstn (Z.to_nat length) (skipn 143 raw))
     else Err (Exn Exception (s "Unexpected solution length format"))).
Proof.
  intros Hv Ht Hb Hn Hr Hp Hm Hc. unfold serialize_header.
  rewrite Hr, Hp, Hm, Hc; cbn [bind].
  rewrite (pack_I_ok _ Hv), (pack_I_ok _ Ht), (pack_I_ok _ Hb); cbn [bind].
  rewrite (to_bytes_little_ok (n_nonce h) 32 ltac:(exact Hn)). reflexivity.
Qed.

(** C2: when the header's integers fit their fields, its digests' hex
    strings decode to [prev], [merkle], [commit] and the raw block hex
    decodes to [raw] whose marker byte 140 is below 253, or is 253 with
    two length bytes present, [serialize_header] returns version, the
    three digests, time and bits (4 little-endian bytes each), the 32
    little-endian nonce bytes, and then the raw block's own compact-size
    field, prefix and data, copied from offset 140: [1 + marker] bytes for
    a one-byte prefix, [3 + length] bytes for the [0xfd] prefix. *)
Theorem serialize_header_layout (h : header) (raw_block_hex : str)
    (raw prev merkle commit : bytes) (marker : Byte.byte) :
  (0 <= n_version h < 2 ^ 32)%Z -> (0 <= n_time h < 2 ^ 32)%Z ->
  (0 <= n_bits h < 2 ^ 32)%Z -> (0 <= n_nonce h < 2 ^ 256)%Z ->
  bytes_fromhex raw_block_hex = Ok raw ->
  bytes_fromhex (hex (hash_prev_block h)) = Ok prev ->
  bytes_fromhex (hex (hash_merkle_root h)) = Ok merkle ->
  bytes_fromhex (hex (hash_block_commitments h)) = Ok commit ->
  nth_error raw 140 = Some marker ->
  Byte.to_nat marker < 253 \/ (Byte.to_nat marker = 253 /\ 143 <= length raw) ->
  let consumed := if Byte.to_nat marker <? 253 then 1 + Byte.to_nat marker
                  else 3 + Z.to_nat (from_bytes_little (firstn 2 (skipn 141 raw))) in
  serialize_header h raw_block_hex =
    Ok (le_bytes 4 (n_version h) ++ prev ++ merkle ++ commit
        ++ le_bytes 4 (n_time h) ++ le_bytes 4 (n_bits h) ++ le_bytes 32 (n_nonce h)
        ++ firstn consumed (skipn 140 raw)).
Proof.
  intros Hv Ht Hb Hn Hr Hp Hm Hc Hk Hcase consumed.
  rewrite (serialize_header_prefix h raw_block_hex raw prev merkle commit Hv Ht Hb Hn Hr Hp Hm Hc).
  cbv zeta. unfold index. rewrite Hk. cbn [bind].
  unfold consumed. rewrite (skipn_nth_error raw 140 marker Hk).
  destruct Hcase as [Lt | [Eq Len]].
  - apply Nat.ltb_lt in Lt as Lt'. rewrite Lt'. rewrite <- !app_assoc. reflexivity.
  - rewrite Eq. cbn [Nat.ltb Nat.leb Nat.eqb].
    destruct (skipn 141 raw) as [|b1 [|b2 rest]] eqn:E;
      [pose proof (f_equal (@length _) E) as L; rewrite length_skipn in L; cbn in L; lia
      |pose proof (f_equal (@length _) E) as L; rewrite length_skipn in L; cbn in L; lia|].
    assert (Es : skipn 143 raw = rest).
    { change 143 with (2 + 141). rewrite <- skipn_skipn, E. reflexivity. }
    rewrite Es. cbn [firstn]. pose proof (pack_unpack_H b1 b2) as P.
    unfold unpack_H in P |- *. cbn [length Nat.eqb bind] in P |- *.
    rewrite P. cbn [bind]. rewrite (byte_253 marker Eq).
    rewrite <- !app_assoc. cbn [app Nat.add firstn]. reflexivity.
Qed.

Lemma serialize_header_layout_witness :
  let raw := raw_with_marker Byte.x02 [Byte.xaa; Byte.xbb; Byte.xcc] in
  let zero := repeat Byte.x00 32 in
  let h := sample_header in
  ((0 <= n_version h < 2 ^ 32)%Z /\ (0 <= n_time h < 2 ^ 32)%Z /\
   (0 <= n_bits h < 2 ^ 32)%Z /\ (0 <= n_nonce h < 2 ^ 256)%Z /\
   bytes_fromhex (bytes_hex raw) = Ok raw /\
   bytes_fromhex (hex (hash_prev_block h)) = Ok zero /\
   nth_error raw 140 = Some Byte.x02) /\
  serialize_header h (bytes_hex raw) =
    Ok (le_bytes 4 (n_version h) ++ zero ++ zero ++ zero
        ++ le_bytes 4 (n_time h) ++ le_bytes 4 (n_bits h) ++ le_bytes 32 (n_nonce h)
        ++ firstn (if Byte.to_nat Byte.x02 <? 253 then 1 + Byte.to_nat Byte.x02
                   else 3 + Z.to_nat (from_bytes_little (firstn 2 (skipn 141 raw))))
             (skipn 140 raw)).
Proof.
  cbv zeta. split.
  - repeat split; try (vm_compute; reflexivity); vm_compute; discriminate.
  - apply (serialize_header_layout sample_header _ _ _ _ _ Byte.x02);
      try (vm_compute; reflexivity).
    all: cbn; lia.
Defined.

(** C5 (code bug): when byte 140 of the raw block is [0xfe] or [0xff],
    [serialize_header] raises [Exception("Unexpected solution length
    format")], but the solution extraction of [fetch_block_header] does
    not fail: it records an empty [n_solution], and the verification it
    runs reports [(False, "Error: ...")] instead of raising. *)
Theorem unsupported_marker_paths (sha256 : bytes -> bytes) (h : header)
    (raw_block_hex blockhash : str) (raw prev merkle commit : bytes) (marker : Byte.byte) :
  (0 <= n_version h < 2 ^ 32)%Z -> (0 <= n_time h < 2 ^ 32)%Z ->
  (0 <= n_bits h < 2 ^ 32)%Z -> (0 <= n_nonce h < 2 ^ 256)%Z ->
  bytes_fromhex raw_block_hex = Ok raw ->
  bytes_fromhex (hex (hash_prev_block h)) = Ok prev ->
  bytes_fromhex (hex (hash_merkle_root h)) = Ok merkle ->
  bytes_fromhex (hex (hash_block_commitments h)) = Ok commit ->
  nth_error raw 140 = Some marker -> 254 <= Byte.to_nat marker ->
  serialize_header h raw_block_hex = Err (Exn Exception (s "Unexpected solution length format")) /\
  fetch_block_header_verify sha256 h raw_block_hex blockhash =
    Ok ([], (false, s "Error: Unexpected solution length format")).
Proof.
  intros Hv Ht Hb Hn Hr Hp Hm Hc Hk Hge.
  assert (L1 : (Byte.to_nat marker <? 253) = false) by (apply Nat.ltb_ge; lia).
  assert (L2 : (Byte.to_nat marker =? 253) = false) by (apply Nat.eqb_neq; lia).
  assert (S : serialize_header h raw_block_hex =
              Err (Exn Exception (s "Unexpected solution length format"))).
  { rewrite (serialize_header_prefix h raw_block_hex raw prev merkle commit Hv Ht Hb Hn Hr Hp Hm Hc).
    cbv zeta. unfold index. rewrite Hk. cbn [bind]. rewrite L1, L2. reflexivity. }
  split; [exact S|].
  unfold fetch_block_header_verify. rewrite Hr. cbn [bind]. unfold index. rewrite Hk.
  cbn [bind]. rewrite L1, L2. cbn [bind]. unfold verify_block_hash. rewrite S. reflexivity.
Qed.

Lemma unsupported_marker_paths_witness :
  let raw := raw_with_marker Byte.xfe [Byte.x01; Byte.x02] in
  let h := sample_header in
  ((0 <= n_version h < 2 ^ 32)%Z /\ bytes_fromhex (bytes_hex raw) = Ok raw /\
   nth_error raw 140 = Some Byte.xfe /\ 254 <= Byte.to_nat Byte.xfe) /\
  serialize_header h (bytes_hex raw) = Err (Exn Exception (s "Unexpected solution length format")) /\
  fetch_block_header_verify toy_sha256 h (bytes_hex raw) (s "00") =
    Ok ([], (false, s "Error: Unexpected solution length format")).
Proof.
  cbv zeta. split.
  - split; [cbn; lia|]. split; [vm_compute; reflexivity|]. split; [reflexivity|]. cbn; lia.
  - apply (unsupported_marker_paths toy_sha256 sample_header _ _
             (raw_with_marker Byte.xfe [Byte.x01; Byte.x02])
             (repeat Byte.x00 32) (repeat Byte.x00 32) (repeat Byte.x00 32) Byte.xfe);
      try (vm_compute; reflexivity).
    all: cbn; lia.
Defined.

Lemma bytes_hex_lower (bs : bytes) : forallb is_lower_hex_char (bytes_hex bs) = true.
Proof.
  induction bs as [|b t IH]; [reflexivity|].
  rewrite bytes_hex_cons, forallb_app, IH. unfold byte_hex. cbn [forallb].
  pose proof (Byte.to_nat_bounded b).
  rewrite !hex_digit_lower; [reflexivity | apply Nat.mod_upper_bound; lia |].
  apply Nat.Div0.div_lt_upper_bound. lia.
Qed.

(** C6 (counterexample): a serializer error does not reach the caller of
    [verify_block_hash]; it comes back as a [False] result. *)
Lemma verify_block_hash_counterexample :
  let raw_hex := bytes_hex (raw_with_marker Byte.xfe []) in
  serialize_header sample_header raw_hex =
    Err (Exn Exception (s "Unexpected solution length format")) /\
  verify_block_hash toy_sha256 sample_header raw_hex (s "00") =
    (false, s "Error: Unexpected solution length format").
Proof. vm_compute. split; reflexivity. Qed.

(** C6 (amended): [verify_block_hash] never raises. A serializer error [e]
    is returned as [(False, "Error: " + str(e))]; otherwise the result is
    [(computed == expected, computed)] with [computed] the display hex of
    the double SHA-256, which is lower-case hex and so never starts with
    [E]: callers tell the two apart only by the ["Error: "] prefix of the
    second component. *)
Theorem verify_block_hash_result (sha256 : bytes -> bytes) (h : header)
    (raw_block_hex expected_hash : str) :
  match serialize_header h raw_block_hex with
  | Ok serialized =>
      verify_block_hash sha256 h raw_block_hex expected_hash =
        (str_eqb (double_sha256 sha256 serialized) expected_hash,
         double_sha256 sha256 serialized) /\
      forallb is_lower_hex_char (double_sha256 sha256 serialized) = true /\
      hd_error (double_sha256 sha256 serialized) <> Some "E"%char
  | Err e =>
      verify_block_hash sha256 h raw_block_hex expected_hash = (false, s "Error: " ++ exn_msg e)
  end.
Proof.
  unfold verify_block_hash. destruct (serialize_header h raw_block_hex) as [bs|e]; [|reflexivity].
  pose proof (bytes_hex_lower (rev (sha256 (sha256 bs)))) as L.
  unfold double_sha256. split; [reflexivity|]. split; [exact L|].
  destruct (bytes_hex (rev (sha256 (sha256 bs)))) as [|c t]; [discriminate|].
  cbn [hd_error forallb] in L |- *. intros E. injection E as ->. discriminate L.
Qed.

End FetchClaims.

(** ** Decimal text, case folding and line splitting *)
Module TextProofs.

Import HexText HexProofs.

Lemma int10_aux_app (acc : Z) (l1 l2 : str) :
  int10_aux acc (l1 ++ l2) =
    match int10_aux acc l1 with Some a => int10_aux a l2 | None => None end.
Proof.
  revert acc. induction l1 as [|c t IH]; intros acc; [reflexivity|].
  simpl. destruct (decval c); [apply IH|reflexivity].
Qed.

Lemma decval_digit (n : nat) : n < 10 -> decval (ascii_of_nat (48 + n)) = Some n.
Proof. intros H. do 10 (destruct n as [|n]; [reflexivity|]). lia. Qed.

Lemma dec_min_aux_value (fuel : nat) (v : Z) :
  (0 <= v < 10 ^ Z.of_nat fuel)%Z ->
  int10_aux 0 (dec_min_aux fuel v) = Some v /\
  forallb is_digit (dec_min_aux fuel v) = true /\
  (1 <= fuel -> dec_min_aux fuel v <> []).
Proof.
  revert v. induction fuel as [|f IH]; intros v Hv.
  - rewrite Z.pow_0_r in Hv. replace v with 0%Z by lia.
    split; [reflexivity|]. split; [reflexivity|lia].
  - cbn [dec_min_aux]. destruct (Z.ltb_spec v 10) as [Hs|Hs].
    + assert (Hn : Z.to_nat v < 10) by lia.
      cbn [int10_aux forallb]. unfold is_digit. rewrite decval_digit by exact Hn.
      split; [f_equal; lia|]. split; [reflexivity|discriminate].
    + rewrite Nat2Z.inj_succ, Z.pow_succ_r in Hv by lia.
      destruct (IH (v / 10)%Z) as [E [F _]];
        [split; [apply Z.div_pos; lia|apply Z.div_lt_upper_bound; lia]|].
      assert (Hm : Z.to_nat (v mod 10) < 10) by (pose proof (Z.mod_pos_bound v 10); lia).
      rewrite int10_aux_app, E, forallb_app, F. cbn [int10_aux forallb]. unfold is_digit.
      rewrite decval_digit by exact Hm.
      split; [f_equal; pose proof (Z.div_mod v 10); pose proof (Z.mod_pos_bound v 10); lia|].
      split; [reflexivity|]. intros _ E'. apply app_eq_nil in E'. destruct E' as [_ E']. discriminate E'.
Qed.

Lemma dec_min_fuel (v : Z) : (0 <= v)%Z -> (v < 10 ^ Z.of_nat (S (Z.to_nat (Z.log2 v))))%Z.
Proof.
  intros Hv. pose proof (Z.log2_nonneg v) as Hl.
  rewrite Nat2Z.inj_succ, Z2Nat.id by lia.
  apply Z.lt_le_trans with (2 ^ Z.succ (Z.log2 v))%Z.
  - destruct (Z.eq_dec v 0) as [->|Hne]; [reflexivity|].
    apply Z.log2_spec. lia.
  - apply Z.pow_le_mono_l. lia.
Qed.

(** [str(v)] of a non-negative [int] is a non-empty digit string that
    [int()] reads back as [v]. *)
Lemma str_int_spec (v : Z) :
  (0 <= v)%Z ->
  int10 (str_int v) = Ok v /\ forallb is_digit (str_int v) = true /\ str_int v <> [].
Proof.
  intros Hv. unfold str_int. replace (v <? 0)%Z with false by (symmetry; apply Z.ltb_ge; lia).
  destruct (dec_min_aux_value (S (Z.to_nat (Z.log2 v))) v) as [E [F N]];
    [split; [lia|apply dec_min_fuel; lia]|].
  specialize (N ltac:(lia)).
  split; [|split; assumption].
  unfold int10. destruct (dec_min_aux _ v); [contradiction|]. rewrite E. reflexivity.
Qed.

Lemma str_int_int10 (v : Z) : (0 <= v)%Z -> int10 (str_int v) = Ok v.
Proof. intros Hv. apply (str_int_spec v Hv). Qed.

Lemma map_int10_str_int (l : list Z) :
  Forall (fun v => 0 <= v)%Z l -> map int10 (map str_int l) = map Ok l.
Proof.
  induction 1 as [|v l Hv _ IH]; [reflexivity|].
  cbn [map]. rewrite str_int_int10 by exact Hv. rewrite IH. reflexivity.
Qed.

Lemma digit_not_newline (c : ascii) : is_digit c = true -> c <> newline.
Proof. intros H E. subst c. discriminate H. Qed.

Lemma digit_not_slash (c : ascii) : is_digit c = true -> (nat_of_ascii c =? 47) = false.
Proof. destruct c as [[] [] [] [] [] [] [] []]; try discriminate; reflexivity. Qed.

Lemma str_int_no_newline (v : Z) : (0 <= v)%Z -> ~ In newline (str_int v).
Proof.
  intros Hv Hin. destruct (str_int_spec v Hv) as [_ [F _]].
  rewrite forallb_forall in F. apply (digit_not_newline newline (F _ Hin)). reflexivity.
Qed.

(** A non-negative number's line is a data line of the calldata text. *)
Lemma data_line_str_int (v : Z) : (0 <= v)%Z -> MerkleProofOutput.data_line (str_int v) = true.
Proof.
  intros Hv. destruct (str_int_spec v Hv) as [_ [F N]].
  destruct (str_int v) as [|c t]; [contradiction|].
  cbn [forallb] in F. apply andb_prop in F as [Fc _].
  unfold MerkleProofOutput.data_line, startswith, str_eqb.
  change (Datatypes.length (s "//")) with 2. cbn [firstn].
  match goal with |- context [list_eq_dec ?d ?a ?b] => destruct (list_eq_dec d a b) as [E|E] end;
    [|reflexivity].
  injection E as Ec _. subst c. discriminate Fc.
Qed.

Lemma data_line_comment (l : str) : MerkleProofOutput.data_line (s "//" ++ l) = false.
Proof. reflexivity. Qed.

Lemma split_nl_aux_app (cur l : str) (rest : str) :
  ~ In newline l ->
  split_nl_aux cur (l ++ newline :: rest) = (rev cur ++ l) :: split_nl_aux [] rest.
Proof.
  revert cur. induction l as [|c t IH]; intros cur Hn.
  - cbn. rewrite app_nil_r. reflexivity.
  - cbn [app split_nl_aux]. destruct (ascii_dec c newline) as [E|E].
    + exfalso. apply Hn. left. exact E.
    + rewrite IH by (intros H; apply Hn; right; exact H). cbn [rev]. rewrite <- app_assoc. reflexivity.
Qed.

Lemma split_nl_aux_end (cur l : str) : ~ In newline l -> split_nl_aux cur l = [rev cur ++ l].
Proof.
  revert cur. induction l as [|c t IH]; intros cur Hn.
  - cbn. rewrite app_nil_r. reflexivity.
  - cbn [split_nl_aux]. destruct (ascii_dec c newline) as [E|E].
    + exfalso. apply Hn. left. exact E.
    + rewrite IH by (intros H; apply Hn; right; exact H). cbn [rev]. rewrite <- app_assoc. reflexivity.
Qed.

(** Splitting the joined lines at newlines gives the lines back when none
    of them holds a newline. *)
Lemma split_join_nl (lines : list str) :
  lines <> [] -> Forall (fun l => ~ In newline l) lines -> split_nl (join_nl lines) = lines.
Proof.
  intros Hne Hl. induction Hl as [|l t Hl Ht IH]; [contradiction|].
  destruct t as [|l' t'].
  - cbn [join_nl]. unfold split_nl. rewrite split_nl_aux_end by exact Hl. reflexivity.
  - change (join_nl (l :: l' :: t')) with (l ++ newline :: join_nl (l' :: t')).
    unfold split_nl in *. rewrite split_nl_aux_app by exact Hl. cbn [rev app].
    rewrite IH by discriminate. reflexivity.
Qed.

Lemma hexval_lower (c : ascii) : hexval (lower_char c) = hexval c.
Proof. destruct c as [[] [] [] [] [] [] [] []]; reflexivity. Qed.

Lemma is_space_lower (c : ascii) : is_space (lower_char c) = is_space c.
Proof. destruct c as [[] [] [] [] [] [] [] []]; reflexivity. Qed.

Lemma is_hex_char_lower (c : ascii) : is_hex_char (lower_char c) = is_hex_char c.
Proof. destruct c as [[] [] [] [] [] [] [] []]; reflexivity. Qed.

(** [bytes.fromhex] ignores letter case. *)
Lemma fromhex_lower (x : str) : fromhex_aux (lower x) = fromhex_aux x.
Proof.
  induction x as [x IH] using (induction_ltof1 _ (@length ascii)).
  destruct x as [|c r]; [reflexivity|].
  unfold lower in *. cbn [map fromhex_aux]. rewrite is_space_lower.
  destruct (is_space c).
  - apply IH. unfold ltof. cbn. lia.
  - destruct r as [|d r']; [reflexivity|]. cbn [map]. rewrite !hexval_lower.
    rewrite (IH r') by (unfold ltof; cbn; lia). reflexivity.
Qed.

Lemma str_eqb_eq (a b : str) : str_eqb a b = true <-> a = b.
Proof.
  unfold str_eqb. destruct (list_eq_dec ascii_dec a b); split; congruence.
Qed.

Lemma bytes_eqb_eq (a b : bytes) : bytes_eqb a b = true <-> a = b.
Proof.
  unfold bytes_eqb. destruct (list_eq_dec Byte.byte_eq_dec a b); split; congruence.
Qed.

End TextProofs.

(** ** Digest words, hex formatting and verification identifiers *)
Module DigestProofs.

Import HexText HexProofs TextProofs.

Lemma hexval_lt (c : ascii) (h : nat) : hexval c = Some h -> h < 16.
Proof.
  destruct c as [[] [] [] [] [] [] [] []]; cbn; intros H; try discriminate H;
    injection H as <-; lia.
Qed.

Lemma int16_aux_shift (acc : Z) (x : str) :
  int16_aux acc x = option_map (fun w => acc * 16 ^ Z.of_nat (length x) + w)%Z (int16_aux 0 x).
Proof.
  revert acc. induction x as [|c r IH]; intros acc.
  - cbn. f_equal. lia.
  - cbn [int16_aux length]. destruct (hexval c) as [h|]; [|reflexivity].
    rewrite (IH (acc * 16 + Z.of_nat h)%Z), (IH (0 * 16 + Z.of_nat h)%Z).
    destruct (int16_aux 0 r); [|reflexivity]. cbn [option_map]. f_equal.
    rewrite Nat2Z.inj_succ, Z.pow_succ_r by lia. ring.
Qed.

Lemma int16_aux_bound (x : str) (w : Z) :
  int16_aux 0 x = Some w -> (0 <= w < 16 ^ Z.of_nat (length x))%Z.
Proof.
  revert w. induction x as [|c r IH]; intros w H.
  - injection H as <-. cbn. lia.
  - cbn [int16_aux length] in H |- *. destruct (hexval c) as [h|] eqn:Hc; [|discriminate H].
    pose proof (hexval_lt c h Hc) as Hh.
    rewrite int16_aux_shift in H. destruct (int16_aux 0 r) as [w'|] eqn:Hr; [|discriminate H].
    injection H as <-. specialize (IH w' eq_refl).
    rewrite Nat2Z.inj_succ, Z.pow_succ_r by lia. nia.
Qed.

(** Lower-case hex strings of one length are equal when they denote the
    same value. *)
Lemma lower_hex_inj (x y : str) :
  length x = length y -> forallb is_lower_hex_char x = true -> forallb is_lower_hex_char y = true ->
  int16_aux 0 x = int16_aux 0 y -> int16_aux 0 x <> None -> x = y.
Proof.
  revert y. induction x as [|c r IH]; intros [|d r'] Hl Hx Hy E N; try discriminate Hl; [reflexivity|].
  cbn [forallb] in Hx, Hy. apply andb_prop in Hx as [Hc Hr]. apply andb_prop in Hy as [Hd Hr'].
  destruct (lower_hex_char_digit c Hc) as [h [Eh [Lh Dh]]].
  destruct (lower_hex_char_digit d Hd) as [h' [Eh' [Lh' Dh']]].
  cbn [int16_aux length] in E, N, Hl. rewrite Eh, Eh' in E. rewrite Eh in N.
  rewrite (int16_aux_shift _ r), (int16_aux_shift _ r') in E. rewrite (int16_aux_shift _ r) in N.
  injection Hl as Hl. rewrite <- Hl in E.
  destruct (int16_aux 0 r) as [w|] eqn:Hw; [|contradiction N; reflexivity].
  destruct (int16_aux 0 r') as [w'|] eqn:Hw'; [|discriminate E].
  cbn [option_map] in E. injection E as E.
  pose proof (int16_aux_bound r w Hw) as Bw. pose proof (int16_aux_bound r' w' Hw') as Bw'.
  rewrite <- Hl in Bw'.
  set (P := (16 ^ Z.of_nat (length r))%Z) in *.
  assert (Hhh : h = h').
  { pose proof (Z.div_unique (Z.of_nat h * P + w) P (Z.of_nat h) w ltac:(lia) ltac:(ring)) as Q1.
    pose proof (Z.div_unique (Z.of_nat h' * P + w') P (Z.of_nat h') w' ltac:(lia) ltac:(ring)) as Q2.
    assert (Q : (Z.of_nat h * P + w = Z.of_nat h' * P + w')%Z) by lia.
    rewrite Q in Q1. lia. }
  subst h'. assert (w = w') by lia. subst w'.
  rewrite <- Dh, <- Dh'. f_equal. apply IH; try assumption.
  all: rewrite ?Hw, ?Hw'; congruence.
Qed.

(** [f"{v:0kx}"]: [k] lower-case hex digits denoting [v] when [v] has at
    most [k] digits. *)
Lemma format_width_spec (k : nat) (v : Z) :
  1 <= k -> (0 <= v < 16 ^ Z.of_nat k)%Z ->
  let d := hex_min v in
  length (repeat "0"%char (k - length d) ++ d) = k /\
  forallb is_lower_hex_char (repeat "0"%char (k - length d) ++ d) = true /\
  int16_aux 0 (repeat "0"%char (k - length d) ++ d) = Some v.
Proof.
  intros Hk Hv. cbv zeta. unfold hex_min.
  set (d := hex_min_aux (S (Z.to_nat (Z.log2 v))) v).
  destruct (hex_min_aux_value (S (Z.to_nat (Z.log2 v))) v) as [E F];
    [split; [lia|apply hex_min_fuel; lia]|]. fold d in E, F.
  assert (Ld : length d <= k) by (apply hex_min_aux_length; lia).
  rewrite length_app, repeat_length, forallb_app, int16_aux_app, int16_aux_zeros, E, F.
  split; [lia|]. split; [|reflexivity].
  rewrite andb_true_r. clear. induction (k - length d) as [|n IH]; [reflexivity|exact IH].
Qed.

(** [f"{int.from_bytes(b, 'big'):08x}"] is [b.hex()] for four bytes. *)
Lemma format_08x_bytes (b : bytes) : length b = 4 -> format_08x (from_bytes_big b) = bytes_hex b.
Proof.
  intros Hb.
  assert (Hv : (0 <= from_bytes_big b < 16 ^ Z.of_nat 8)%Z).
  { unfold from_bytes_big. pose proof (from_little_bound (rev b)) as B.
    rewrite length_rev, Hb in B. exact B. }
  destruct (format_width_spec 8 (from_bytes_big b) ltac:(lia) Hv) as [L [F E]].
  unfold format_08x. apply lower_hex_inj.
  - rewrite L, length_bytes_hex, Hb. reflexivity.
  - exact F.
  - apply FetchClaims.bytes_hex_lower.
  - rewrite E, int16_aux_bytes_hex, fold_big; f_equal; ring.
  - rewrite E. discriminate.
Qed.

(** The eight big-endian words of 32 bytes are below [2^32] and their
    [08x] texts, joined, are the hex of the bytes. *)
Lemma digest_words_hex (raw : bytes) :
  length raw = 32 ->
  length (MerkleProof.digest_words raw) = 8 /\
  Forall (fun w => 0 <= w < 2 ^ 32)%Z (MerkleProof.digest_words raw) /\
  FetchBlock.digest_to_internal_hex (MerkleProof.digest_words raw) = bytes_hex raw.
Proof.
  intros Hl. split; [reflexivity|]. split.
  - unfold MerkleProof.digest_words. cbn [map].
    repeat constructor; apply DigestClaims.word_bound; lia.
  - do 32 (destruct raw as [|? raw]; [discriminate Hl|]).
    destruct raw; [|discriminate Hl].
    unfold FetchBlock.digest_to_internal_hex, MerkleProof.digest_words.
    cbn [map firstn skipn flat_map]. rewrite !format_08x_bytes by reflexivity. reflexivity.
Qed.

(** [x.zfill(64)] of hex text puts zeros in front. *)
Lemma zfill_hex (x : str) :
  forallb is_hex_char x = true -> length x <= 64 ->
  zfill 64 x = repeat "0"%char (64 - length x) ++ x.
Proof.
  intros Hx Hl. unfold zfill.
  destruct (Nat.leb_spec 64 (length x)) as [H|H].
  - replace (64 - length x) with 0 by lia. reflexivity.
  - destruct x as [|c r]; [reflexivity|].
    cbn [forallb] in Hx. apply andb_prop in Hx as [Hc _].
    replace ((nat_of_ascii c =? 43) || (nat_of_ascii c =? 45)) with false; [reflexivity|].
    destruct c as [[] [] [] [] [] [] [] []]; try discriminate Hc; reflexivity.
Qed.

Lemma zeros_hex (n : nat) : repeat "0"%char (2 * n) = bytes_hex (repeat Byte.x00 n).
Proof.
  induction n as [|n IH]; [reflexivity|].
  replace (2 * S n) with (S (S (2 * n))) by lia. cbn [repeat]. rewrite IH. reflexivity.
Qed.

Lemma fromhex_app_bytes_hex (z : bytes) (x : str) :
  fromhex_aux (bytes_hex z ++ x) = option_map (app z) (fromhex_aux x).
Proof.
  induction z as [|b t IH].
  - cbn. destruct (fromhex_aux x); reflexivity.
  - rewrite bytes_hex_cons, <- app_assoc, fromhex_byte_hex, IH.
    destruct (fromhex_aux x); reflexivity.
Qed.

Lemma bytes_hex_app (a b : bytes) : bytes_hex (a ++ b) = bytes_hex a ++ bytes_hex b.
Proof. apply flat_map_app. Qed.

(** A display hash of [2k] hex digits, [k <= 32], is read as if it had
    [32 - k] leading zero bytes. *)
Lemma internal_bytes_short (x : str) (k : nat) :
  forallb is_hex_char x = true -> length x = 2 * k -> k <= 32 ->
  exists d, bytes_fromhex x = Ok d /\ length d = k /\
    MerkleProof.internal_bytes x = Ok (rev d ++ repeat Byte.x00 (32 - k)).
Proof.
  intros Hx Hl Hk.
  destruct (fromhex_hex_text k x Hl Hx) as [d [Ed [Ld _]]].
  exists d. unfold bytes_fromhex. rewrite Ed. split; [reflexivity|]. split; [exact Ld|].
  unfold MerkleProof.internal_bytes, bytes_fromhex. cbv zeta.
  rewrite (replace_0x_hex x Hx), zfill_hex by (assumption || lia).
  replace (64 - length x) with (2 * (32 - k)) by lia.
  rewrite zeros_hex, fromhex_app_bytes_hex, Ed. cbn [option_map bind].
  rewrite rev_app_distr, rev_repeat. reflexivity.
Qed.

Lemma fromhex_length (x : str) (d : bytes) : fromhex_aux x = Some d -> 2 * length d <= length x.
Proof.
  revert d. induction x as [x IH] using (induction_ltof1 _ (@length ascii)); intros d H.
  destruct x as [|c r]; [injection H as <-; cbn; lia|].
  cbn [fromhex_aux] in H. destruct (is_space c).
  - specialize (IH r ltac:(unfold ltof; cbn; lia) d H). cbn. lia.
  - destruct r as [|e r']; [discriminate H|].
    destruct (hexval c), (hexval e); try discriminate H.
    destruct (Byte.of_nat _); [|discriminate H].
    destruct (fromhex_aux r') as [t|] eqn:Et; [|discriminate H].
    injection H as <-. specialize (IH r' ltac:(unfold ltof; cbn; lia) t Et). cbn. lia.
Qed.

Lemma replace_0x_length (l : str) : length (replace_0x l) <= length l.
Proof.
  induction l as [l IH] using (induction_ltof1 _ (@length ascii)).
  destruct l as [|c [|d r]]; [cbn; lia|cbn; lia|].
  change (replace_0x (c :: d :: r)) with
    (if (nat_of_ascii c =? 48) && (nat_of_ascii d =? 120) then replace_0x r
     else c :: replace_0x (d :: r)).
  destruct (_ && _).
  - specialize (IH r ltac:(unfold ltof; cbn; lia)). cbn [length]. lia.
  - specialize (IH (d :: r) ltac:(unfold ltof; cbn; lia)). cbn [length] in *. lia.
Qed.

Lemma int16_value_error (l : str) :
  (exists v, int16 l = Ok v) \/ (exists m, int16 l = Err (Exn ValueError m)).
Proof.
  unfold int16. destruct l; [right; eexists; reflexivity|].
  destruct (int16_aux 0 _); [left|right]; eexists; reflexivity.
Qed.

Lemma res_map_value_error {A B} (f : A -> res B) (l : list A) (a : A) (m : str) :
  (forall x, (exists v, f x = Ok v) \/ (exists m', f x = Err (Exn ValueError m'))) ->
  In a l -> f a = Err (Exn ValueError m) ->
  exists m', res_map f l = Err (Exn ValueError m').
Proof.
  intros Hf Hin Ha. induction l as [|x t IH]; [destruct Hin|].
  cbn [res_map]. destruct Hin as [->|Hin].
  - rewrite Ha. eexists. reflexivity.
  - destruct (Hf x) as [[v Hv]|[m' Hm']].
    + rewrite Hv. cbn [bind]. destruct (IH Hin) as [m'' E]. rewrite E. eexists. reflexivity.
    + rewrite Hm'. eexists. reflexivity.
Qed.

End DigestProofs.

(** ** [calculate_pow]: its range *)
Module PowExtras.

(** [calculate_pow] never exceeds [2^255], and it is [0] exactly when the
    target is [0] or does not fit in 256 bits. *)
Theorem calculate_pow_range (bits : Z) :
  (0 <= Fetch.calculate_pow bits <= 2 ^ 255)%Z /\
  (Fetch.calculate_pow bits = 0 <-> Fetch.bits_target bits = 0 \/ 2 ^ 256 <= Fetch.bits_target bits)%Z.
Proof.
  assert (Ht : (0 <= Fetch.bits_target bits)%Z).
  { unfold Fetch.bits_target.
    assert (0 <= Z.land bits 0xffffff)%Z by (apply Z.land_nonneg; lia).
    destruct (_ <=? 3)%Z; [apply Z.shiftr_nonneg | apply Z.shiftl_nonneg]; lia. }
  destruct (Z.eq_dec (Fetch.bits_target bits) 0) as [E|E].
  - unfold Fetch.calculate_pow. rewrite E. cbn. lia.
  - rewrite (PowProofs.calculate_pow_div bits) by lia.
    set (t := Fetch.bits_target bits) in *.
    split; [split|].
    + apply Z.div_pos; lia.
    + apply Z.div_le_upper_bound; [lia|].
      assert (E2 : (2 ^ 256 = 2 * 2 ^ 255)%Z) by reflexivity. rewrite E2.
      assert (P : (0 < 2 ^ 255)%Z) by reflexivity. set (q := (2 ^ 255)%Z) in *. nia.
    + split.
      * intros H0. right. destruct (Z.lt_ge_cases t (2 ^ 256)) as [L|L]; [|exact L].
        assert (1 <= 2 ^ 256 / (t + 1))%Z by (apply Z.div_le_lower_bound; lia). lia.
      * intros [H0|H0]; [contradiction|]. apply Z.div_small. lia.
Qed.

End PowExtras.

(** ** Merkle branches: empty lists, lengths and levels *)
Module MerkleTreeExtras.

Import MerkleProof MerkleLevels MerkleBranch MerkleExtras.

(** On an empty transaction list [get_merkle_proof] of [merkle-proof.py]
    returns an empty branch and 32 zero bytes as root, while the one of
    [get-block-txs.py] raises [IndexError] at [current[0]]. *)
Theorem get_merkle_proof_empty (sha256 : bytes -> bytes) (idx : nat) :
  get_merkle_proof sha256 [] idx = ([], repeat Byte.x00 32) /\
  GetBlockTxs.get_merkle_proof sha256 [] idx = Err (Exn IndexError (s "index out of range")).
Proof. split; reflexivity. Qed.

(** For an index inside a list of [n] transactions the branch of both
    [get_merkle_proof] functions has [ceil(log2 n)] entries. *)
Theorem get_merkle_proof_branch_length (sha256 : bytes -> bytes) (tx_hashes : list bytes) (idx : nat) :
  idx < length tx_hashes ->
  length (fst (get_merkle_proof sha256 tx_hashes idx)) = Nat.log2_up (length tx_hashes) /\
  exists branch root,
    GetBlockTxs.get_merkle_proof sha256 tx_hashes idx = Ok (branch, root) /\
    length branch = Nat.log2_up (length tx_hashes).
Proof.
  intros Hi. assert (Hne : tx_hashes <> []) by (intros E; subst; simpl in Hi; lia).
  rewrite get_merkle_proof_levels, get_block_txs_levels by exact Hne. cbn [fst].
  rewrite proof_walk_length by (reflexivity || lia || assumption).
  split; [reflexivity|]. do 2 eexists. split; [reflexivity|].
  rewrite length_map, proof_walk_length by (reflexivity || lia || assumption). reflexivity.
Qed.

Lemma get_merkle_proof_branch_length_witness :
  3 < length Samples.leaves5 /\
  length (fst (get_merkle_proof Samples.toy_sha256 Samples.leaves5 3)) = Nat.log2_up (length Samples.leaves5) /\
  exists branch root,
    GetBlockTxs.get_merkle_proof Samples.toy_sha256 Samples.leaves5 3 = Ok (branch, root) /\
    length branch = Nat.log2_up (length Samples.leaves5).
Proof. split; [simpl; lia | apply get_merkle_proof_branch_length; simpl; lia]. Defined.

(** [build_merkle_tree] on [n > 0] transactions stores [ceil(log2 n) + 1]
    levels, the first the transactions and the last the root alone. *)
Theorem build_merkle_tree_levels (sha256 : bytes -> bytes) (tx_hashes : list bytes) :
  tx_hashes <> [] ->
  let '(root, levels) := build_merkle_tree sha256 tx_hashes in
  length levels = S (Nat.log2_up (length tx_hashes)) /\
  hd [] levels = tx_hashes /\ last levels [] = [root].
Proof.
  intros Hne. unfold build_merkle_tree.
  destruct tx_hashes as [|a t] eqn:Et; [contradiction|]. rewrite <- Et in *.
  rewrite build_loop_spec by lia. unfold settle. rewrite andb_false_l.
  destruct (upper_levels_shape sha256 (length tx_hashes) tx_hashes ltac:(lia) Hne) as [L S].
  destruct (final_level_single sha256 (length tx_hashes) tx_hashes ltac:(lia) Hne) as [r Er].
  rewrite Er. cbn [hd]. split; [cbn [app length]; rewrite L; reflexivity|]. split; [reflexivity|].
  destruct (Nat.ltb_spec 1 (length tx_hashes)) as [Hc|Hc].
  - specialize (S Hc). rewrite Er in S.
    destruct (upper_levels sha256 (length tx_hashes) tx_hashes) as [|u us] eqn:Eu.
    + cbn [length] in L. pose proof (Nat.log2_up_pos (length tx_hashes) Hc). lia.
    + cbn [app]. rewrite <- S. destruct us; reflexivity.
  - destruct tx_hashes as [|b [|c w]]; simpl in Hc; try lia; [contradiction|].
    cbn [final_level length Nat.ltb Nat.leb] in Er. injection Er as <-.
    destruct (upper_levels sha256 1 [b]) eqn:Eu; [reflexivity|discriminate Eu].
Qed.

Lemma build_merkle_tree_levels_witness :
  Samples.leaves5 <> [] /\
  let '(root, levels) := build_merkle_tree Samples.toy_sha256 Samples.leaves5 in
  length levels = S (Nat.log2_up (length Samples.leaves5)) /\
  hd [] levels = Samples.leaves5 /\ last levels [] = [root].
Proof. split; [discriminate | apply (build_merkle_tree_levels Samples.toy_sha256 Samples.leaves5); discriminate]. Defined.

End MerkleTreeExtras.

(** ** Digests of display hashes and verification ids *)
Module DigestExtras.

Import HexText HexProofs TextProofs DigestProofs.

Lemma forallb_repeat {A} (f : A -> bool) (a : A) (n : nat) :
  f a = true -> forallb f (repeat a n) = true.
Proof. intros H. induction n as [|n IH]; [reflexivity|]. cbn. rewrite H, IH. reflexivity. Qed.

(** A display hash of at most 64 hex digits is read as 32 bytes. *)
Lemma internal_bytes_hex (x : str) :
  forallb is_hex_char x = true -> length x <= 64 ->
  exists d, length d = 32 /\
    zfill 64 (replace_0x x) = repeat "0"%char (64 - length x) ++ x /\
    bytes_fromhex (zfill 64 (replace_0x x)) = Ok (rev d).
Proof.
  intros Hx Hl.
  assert (Ez : zfill 64 (replace_0x x) = repeat "0"%char (64 - length x) ++ x)
    by (rewrite replace_0x_hex by exact Hx; apply zfill_hex; assumption).
  assert (Hz : forallb is_hex_char (repeat "0"%char (64 - length x) ++ x) = true)
    by (rewrite forallb_app, forallb_repeat, Hx by reflexivity; reflexivity).
  destruct (fromhex_hex_text 32 (repeat "0"%char (64 - length x) ++ x)) as [d0 [E0 [L0 _]]];
    [rewrite length_app, repeat_length; lia | exact Hz |].
  exists (rev d0). split; [rewrite length_rev; exact L0|]. split; [exact Ez|].
  rewrite Ez, rev_involutive. unfold bytes_fromhex. rewrite E0. reflexivity.
Qed.

(** [hash_to_digest] of [fetch.py] on a display hash of at most 64 hex
    digits: eight words below [2^32], [hex] and [cairo_hex] the same 64
    lower-case digits, the words printed back by [digest_to_internal_hex]
    giving [hex]; [hash_to_internal_hex] and [hash_to_digest_array] of
    [merkle-proof.py] give the same text and words. *)
Theorem hash_to_digest_consistent (x : str) :
  forallb is_hex_char x = true -> length x <= 64 ->
  exists dg, Fetch.hash_to_digest x = Ok dg /\
    length (Fetch.value dg) = 8 /\ Forall (fun w => 0 <= w < 2 ^ 32)%Z (Fetch.value dg) /\
    Fetch.cairo_hex dg = Fetch.hex dg /\ length (Fetch.hex dg) = 64 /\
    forallb is_lower_hex_char (Fetch.hex dg) = true /\
    FetchBlock.digest_to_internal_hex (Fetch.value dg) = Fetch.hex dg /\
    MerkleProof.hash_to_internal_hex x = Ok (Fetch.hex dg) /\
    MerkleProof.hash_to_digest_array x = Ok (Fetch.value dg).
Proof.
  intros Hx Hl. destruct (internal_bytes_hex x Hx Hl) as [d [Ld [_ Ed]]].
  destruct (digest_words_hex d Ld) as [W1 [W2 W3]].
  exists {| Fetch.value := MerkleProof.digest_words d; Fetch.hex := bytes_hex d;
            Fetch.cairo_hex := bytes_hex d |}.
  unfold Fetch.hash_to_digest, MerkleProof.hash_to_internal_hex,
    MerkleProof.hash_to_digest_array, MerkleProof.internal_bytes. cbv zeta.
  rewrite Ed. cbn [bind Fetch.value Fetch.hex Fetch.cairo_hex]. rewrite rev_involutive.
  split; [reflexivity|]. split; [exact W1|]. split; [exact W2|]. split; [reflexivity|].
  split; [rewrite length_bytes_hex, Ld; reflexivity|].
  split; [apply FetchClaims.bytes_hex_lower|]. split; [exact W3|]. split; reflexivity.
Qed.

Lemma hash_to_digest_consistent_witness :
  let x := s "00000000000000000000000000000000000000000000000000000000000AbC1" in
  (forallb is_hex_char x = true /\ length x <= 64) /\
  exists dg, Fetch.hash_to_digest x = Ok dg /\
    length (Fetch.value dg) = 8 /\ Forall (fun w => 0 <= w < 2 ^ 32)%Z (Fetch.value dg) /\
    Fetch.cairo_hex dg = Fetch.hex dg /\ length (Fetch.hex dg) = 64 /\
    forallb is_lower_hex_char (Fetch.hex dg) = true /\
    FetchBlock.digest_to_internal_hex (Fetch.value dg) = Fetch.hex dg /\
    MerkleProof.hash_to_internal_hex x = Ok (Fetch.hex dg) /\
    MerkleProof.hash_to_digest_array x = Ok (Fetch.value dg).
Proof.
  cbv zeta. split; [split; [reflexivity | cbn; lia]|].
  apply hash_to_digest_consistent; [reflexivity | cbn; lia].
Defined.

(** A display hash of [2k] hex digits, [k <= 32], is read as the number
    it denotes: its bytes reversed, then [32 - k] zero bytes. *)
Theorem hash_to_internal_hex_short (x : str) (k : nat) (d : bytes) :
  forallb is_hex_char x = true -> length x = 2 * k -> k <= 32 -> bytes_fromhex x = Ok d ->
  MerkleProof.hash_to_internal_hex x = Ok (bytes_hex (rev d) ++ repeat "0"%char (2 * (32 - k))).
Proof.
  intros Hx Hl Hk Ed. destruct (internal_bytes_short x k Hx Hl Hk) as [d' [Ed' [_ Ei]]].
  rewrite Ed in Ed'. injection Ed' as <-.
  unfold MerkleProof.hash_to_internal_hex. rewrite Ei. cbn [bind].
  rewrite bytes_hex_app, <- zeros_hex. reflexivity.
Qed.

Lemma hash_to_internal_hex_short_witness :
  let x := s "0aFF" in
  (forallb is_hex_char x = true /\ length x = 2 * 2 /\ 2 <= 32 /\
   bytes_fromhex x = Ok [Byte.x0a; Byte.xff]) /\
  MerkleProof.hash_to_internal_hex x =
    Ok (bytes_hex (rev [Byte.x0a; Byte.xff]) ++ repeat "0"%char (2 * (32 - 2))).
Proof.
  cbv zeta. split; [repeat split; first [reflexivity | lia]|].
  apply hash_to_internal_hex_short; [reflexivity | reflexivity | lia | reflexivity].
Defined.

Lemma chunk56_value_error (x : str) :
  length x <= 56 ->
  exists m, res_map (fun i => int16 (firstn 8 (skipn i x))) [0; 8; 16; 24; 32; 40; 48; 56] =
              Err (Exn ValueError m).
Proof.
  intros Hl.
  apply (res_map_value_error _ _ 56 (s "invalid literal for int() with base 16: ''")).
  - intros i. apply int16_value_error.
  - cbn. tauto.
  - rewrite skipn_all2 by exact Hl. reflexivity.
Qed.

(** A block hash of at most 56 characters has no eighth 32-bit chunk:
    [int('', 16)] raises [ValueError] in both verification-id scripts
    (they do not zero-fill). *)
Theorem verification_id_short_error (x : str) :
  length x <= 56 ->
  (exists m, ComputeVerificationId.compute_verification_id_from_block_hash x = Err (Exn ValueError m)) /\
  (exists m, ComputeVerificationId.main_output x = Err (Exn ValueError m)) /\
  (exists m, FormatBlockCalldata.compute_verification_id x = Err (Exn ValueError m)).
Proof.
  intros Hl.
  assert (H : exists m,
    (let* hash_bytes := bytes_fromhex (replace_0x x) in
     res_map (fun i => int16 (firstn 8 (skipn i (bytes_hex (rev hash_bytes)))))
       [0; 8; 16; 24; 32; 40; 48; 56]) = Err (Exn ValueError m)).
  { unfold bytes_fromhex. destruct (fromhex_aux (replace_0x x)) as [d|] eqn:Ed.
    - cbn [bind]. apply chunk56_value_error.
      rewrite length_bytes_hex, length_rev.
      pose proof (fromhex_length _ _ Ed). pose proof (replace_0x_length x). lia.
    - eexists. reflexivity. }
  destruct H as [m H].
  unfold ComputeVerificationId.main_output, ComputeVerificationId.compute_verification_id_from_block_hash,
    FormatBlockCalldata.compute_verification_id.
  cbv zeta. destruct (bytes_fromhex (replace_0x x)) as [d|e]; cbn [bind] in H |- *.
  - rewrite H. cbn [bind]. split; [|split]; eexists; reflexivity.
  - injection H as ->. split; [|split]; eexists; reflexivity.
Qed.

Lemma verification_id_short_error_witness :
  length (s "0x00ab") <= 56 /\
  (exists m, ComputeVerificationId.compute_verification_id_from_block_hash (s "0x00ab") = Err (Exn ValueError m)) /\
  (exists m, ComputeVerificationId.main_output (s "0x00ab") = Err (Exn ValueError m)) /\
  (exists m, FormatBlockCalldata.compute_verification_id (s "0x00ab") = Err (Exn ValueError m)).
Proof. split; [cbn; lia | apply verification_id_short_error; cbn; lia]. Defined.

(** The id printed by [format-block-calldata.py] is, on every input and
    for every error, what [compute-verification-id.py] prints. *)
Theorem verification_id_scripts_agree (x : str) :
  FormatBlockCalldata.compute_verification_id x = ComputeVerificationId.main_output x.
Proof.
  unfold FormatBlockCalldata.compute_verification_id, ComputeVerificationId.main_output,
    ComputeVerificationId.compute_verification_id_from_block_hash.
  destruct (bytes_fromhex (replace_0x x)); [|reflexivity]. cbn [bind].
  destruct (res_map _ _); reflexivity.
Qed.

End DigestExtras.

(** ** [format-block-calldata.py]: the felts of a header *)
Module CalldataExtras.

Import Fetch BlockCalldata HexText HexProofs TextProofs.

Lemma byte_Z_nonneg (b : Byte.byte) : (0 <= byte_Z b)%Z.
Proof. unfold byte_Z. lia. Qed.

(** The slice [solution_hex[2j:2j+2]] of a [bytes.hex()] text is the
    [j]-th byte. *)
Lemma byte_chunk_int16 (bs : bytes) (j : nat) :
  j < length bs ->
  int16 (firstn 2 (skipn (2 * j) (bytes_hex bs))) = Ok (byte_Z (nth j bs Byte.x00)).
Proof.
  intros Hj. rewrite skipn_bytes_hex. change 2 with (2 * 1) at 1. rewrite firstn_bytes_hex.
  rewrite (FetchClaims.skipn_nth_error bs j (nth j bs Byte.x00)) by (apply nth_error_nth'; exact Hj).
  cbn [firstn]. rewrite int16_bytes_hex by discriminate.
  unfold from_bytes_big. cbn [rev app from_bytes_little]. f_equal. ring.
Qed.

Lemma res_map_seq_bytes (bs : bytes) (k n : nat) :
  k + n <= length bs ->
  res_map (fun i => int16 (firstn 2 (skipn i (bytes_hex bs)))) (map (fun k => 2 * k) (seq k n)) =
    Ok (map (fun j => byte_Z (nth j bs Byte.x00)) (seq k n)).
Proof.
  revert k. induction n as [|n IH]; intros k Hk; [reflexivity|].
  cbn [seq map res_map]. rewrite byte_chunk_int16 by lia. cbn [bind].
  rewrite IH by lia. reflexivity.
Qed.

Lemma map_nth_seq (bs : bytes) : map (fun j => byte_Z (nth j bs Byte.x00)) (seq 0 (length bs)) = map byte_Z bs.
Proof.
  induction bs as [|b t IH]; [reflexivity|].
  cbn [length seq map]. rewrite <- seq_shift, map_map. cbn [nth]. rewrite IH. reflexivity.
Qed.

(** [u256_to_calldata]: the low and the high 128 bits, as decimal felts. *)
Theorem u256_to_calldata_split (v : Z) :
  (0 <= v)%Z ->
  exists low high,
    map int10 (u256_to_calldata v) = [Ok low; Ok high] /\
    v = (low + 2 ^ 128 * high)%Z /\ (0 <= low < 2 ^ 128)%Z /\ (0 <= high)%Z /\
    (v < 2 ^ 256 -> high < 2 ^ 128)%Z.
Proof.
  intros Hv. exists (v mod 2 ^ 128)%Z, (v / 2 ^ 128)%Z.
  unfold u256_to_calldata.
  replace (Z.shiftl 1 128 - 1)%Z with (Z.ones 128) by reflexivity.
  rewrite Z.land_ones, Z.shiftr_div_pow2 by lia.
  assert (P : (0 < 2 ^ 128)%Z) by reflexivity.
  pose proof (Z.mod_pos_bound v (2 ^ 128) P) as M.
  assert (D : (0 <= v / 2 ^ 128)%Z) by (apply Z.div_pos; lia).
  cbn [map]. rewrite !str_int_int10 by lia.
  split; [reflexivity|]. split; [rewrite (Z.div_mod v (2 ^ 128)) at 1 by lia; lia|].
  split; [lia|]. split; [lia|].
  intros Hl. apply Z.div_lt_upper_bound; [lia|]. exact Hl.
Qed.

Lemma u256_to_calldata_split_witness :
  (0 <= 2 ^ 200 + 7)%Z /\
  exists low high,
    map int10 (u256_to_calldata (2 ^ 200 + 7)) = [Ok low; Ok high] /\
    (2 ^ 200 + 7 = low + 2 ^ 128 * high)%Z /\ (0 <= low < 2 ^ 128)%Z /\ (0 <= high)%Z /\
    (2 ^ 200 + 7 < 2 ^ 256 -> high < 2 ^ 128)%Z.
Proof. split; [lia | apply u256_to_calldata_split; lia]. Defined.

(** [solution_to_calldata] on the [bytes.hex()] text of a solution: its
    byte count, then each byte, in decimal. *)
Theorem solution_to_calldata_bytes (bs : bytes) :
  solution_to_calldata (bytes_hex bs) =
    Ok (str_int (Z.of_nat (length bs)) :: map (fun b => str_int (byte_Z b)) bs) /\
  map int10 (str_int (Z.of_nat (length bs)) :: map (fun b => str_int (byte_Z b)) bs) =
    map Ok (Z.of_nat (length bs) :: map byte_Z bs).
Proof.
  split.
  - unfold solution_to_calldata. rewrite length_bytes_hex.
    replace ((2 * length bs + 1) / 2) with (length bs)
      by (apply Nat.div_unique with 1; lia).
    rewrite res_map_seq_bytes by lia. cbn [bind]. rewrite map_nth_seq.
    rewrite length_map. cbn [app]. rewrite map_map. reflexivity.
  - replace (str_int (Z.of_nat (length bs)) :: map (fun b => str_int (byte_Z b)) bs)
      with (map str_int (Z.of_nat (length bs) :: map byte_Z bs)) by (cbn [map]; rewrite map_map; reflexivity).
    apply map_int10_str_int.
    constructor; [lia|]. apply Forall_map. apply Forall_forall. intros b _. apply byte_Z_nonneg.
Qed.

(** [header_to_calldata]: the version, the 24 words of the three
    digests, time, bits, the nonce as [low, high], then the solution's
    length and bytes; the [length] entry of an [n_solution] dictionary is
    not read.  With eight words per digest that is [30 + n] felts. *)
Theorem header_to_calldata_felts (h : header) (bs : bytes) (k : nat) :
  (0 <= n_version h)%Z -> (0 <= n_time h)%Z -> (0 <= n_bits h)%Z -> (0 <= n_nonce h)%Z ->
  Forall (fun v => 0 <= v)%Z (value (hash_prev_block h)) ->
  Forall (fun v => 0 <= v)%Z (value (hash_merkle_root h)) ->
  Forall (fun v => 0 <= v)%Z (value (hash_block_commitments h)) ->
  exists cd,
    header_to_calldata h (SolutionDict (bytes_hex bs) k) = Ok cd /\
    header_to_calldata h (SolutionHex (bytes_hex bs)) = Ok cd /\
    map int10 cd =
      map Ok ([n_version h] ++ value (hash_prev_block h) ++ value (hash_merkle_root h)
              ++ value (hash_block_commitments h)
              ++ [n_time h; n_bits h; (n_nonce h mod 2 ^ 128)%Z; (n_nonce h / 2 ^ 128)%Z;
                  Z.of_nat (length bs)] ++ map byte_Z bs) /\
    (length (value (hash_prev_block h)) = 8 -> length (value (hash_merkle_root h)) = 8 ->
     length (value (hash_block_commitments h)) = 8 -> length cd = 30 + length bs).
Proof.
  intros Hv Ht Hb Hn Hp Hm Hc.
  destruct (solution_to_calldata_bytes bs) as [Es Ds].
  eexists. unfold header_to_calldata. rewrite Es. cbn [bind].
  split; [reflexivity|]. split; [reflexivity|].
  assert (U : map int10 (u256_to_calldata (n_nonce h)) =
              [Ok (n_nonce h mod 2 ^ 128)%Z; Ok (n_nonce h / 2 ^ 128)%Z]).
  { unfold u256_to_calldata.
    replace (Z.shiftl 1 128 - 1)%Z with (Z.ones 128) by reflexivity.
  rewrite Z.land_ones, Z.shiftr_div_pow2 by lia.
    assert (P : (0 < 2 ^ 128)%Z) by reflexivity.
    pose proof (Z.mod_pos_bound (n_nonce h) (2 ^ 128) P).
    assert (0 <= n_nonce h / 2 ^ 128)%Z by (apply Z.div_pos; lia).
    cbn [map]. rewrite !str_int_int10 by lia. reflexivity. }
  split.
  - unfold digest_to_calldata. rewrite !map_app, Ds, U, !map_int10_str_int by assumption.
    cbn [map app]. rewrite str_int_int10 by exact Hv. rewrite str_int_int10 by exact Ht.
    rewrite str_int_int10 by exact Hb. rewrite <- !app_assoc. reflexivity.
  - intros L1 L2 L3. unfold digest_to_calldata, u256_to_calldata.
    rewrite !length_app, !length_map, L1, L2, L3. cbn [length]. rewrite length_map. lia.
Qed.

Lemma header_to_calldata_felts_witness :
  let h := Samples.sample_header in
  ((0 <= n_version h)%Z /\ (0 <= n_time h)%Z /\ (0 <= n_bits h)%Z /\ (0 <= n_nonce h)%Z /\
   Forall (fun v => 0 <= v)%Z (value (hash_prev_block h)) /\
   Forall (fun v => 0 <= v)%Z (value (hash_merkle_root h)) /\
   Forall (fun v => 0 <= v)%Z (value (hash_block_commitments h))) /\
  exists cd,
    header_to_calldata h (SolutionDict (bytes_hex [Byte.x01; Byte.xff]) 7) = Ok cd /\
    header_to_calldata h (SolutionHex (bytes_hex [Byte.x01; Byte.xff])) = Ok cd /\
    map int10 cd =
      map Ok ([n_version h] ++ value (hash_prev_block h) ++ value (hash_merkle_root h)
              ++ value (hash_block_commitments h)
              ++ [n_time h; n_bits h; (n_nonce h mod 2 ^ 128)%Z; (n_nonce h / 2 ^ 128)%Z;
                  Z.of_nat (length [Byte.x01; Byte.xff])] ++ map byte_Z [Byte.x01; Byte.xff]) /\
    (length (value (hash_prev_block h)) = 8 -> length (value (hash_merkle_root h)) = 8 ->
     length (value (hash_block_commitments h)) = 8 -> length cd = 30 + length [Byte.x01; Byte.xff]).
Proof.
  cbv zeta. split.
  - repeat split; try (cbn; lia); repeat constructor; cbn; lia.
  - apply header_to_calldata_felts; try (cbn; lia); repeat constructor; cbn; lia.
Defined.

End CalldataExtras.

(** ** [fetch_block_header]: defaults, the verify mode and its errors *)
Module FetchExtras.

Import Fetch FetchBlock HexText HexProofs.

Lemma sha32_length (b : bytes) : length (MoreSamples.sha32 b) = 32.
Proof. unfold MoreSamples.sha32. rewrite length_firstn, length_app, repeat_length. lia. Qed.


Section Fetching.

Variable sha256 : bytes -> bytes.




End Fetching.







End FetchExtras.

(** ** [generate_merkle_proof] and [format_cairo_calldata] *)
Module ProofOutputExtras.

Import MerkleProof MerkleLevels MerkleBranch MerkleExtras MerkleProofOutput
  HexText HexProofs TextProofs DigestProofs.

Lemma find_tx_none (txids : list str) (x : str) (k : nat) :
  (forall tid, In tid txids -> lower tid <> x) -> find_tx txids x k = None.
Proof.
  revert k. induction txids as [|t r IH]; intros k H; [reflexivity|].
  cbn [find_tx]. destruct (str_eqb (lower t) x) eqn:E.
  - apply str_eqb_eq in E. exfalso. apply (H t); [left; reflexivity|exact E].
  - apply IH. intros tid Hin. apply H. right. exact Hin.
Qed.

Lemma find_tx_first (txids : list str) (x : str) (k i : nat) :
  i < length txids -> lower (nth i txids []) = x ->
  (forall j, j < i -> lower (nth j txids []) <> x) ->
  find_tx txids x k = Some (k + i).
Proof.
  revert k i. induction txids as [|t r IH]; intros k i Hi Hx Hj; [cbn in Hi; lia|].
  cbn [find_tx]. destruct i as [|i].
  - cbn [nth] in Hx. rewrite Hx. destruct (str_eqb x x) eqn:E; [f_equal; lia|].
    exfalso. assert (str_eqb x x = true) by (apply str_eqb_eq; reflexivity). congruence.
  - destruct (str_eqb (lower t) x) eqn:E.
    + apply str_eqb_eq in E. exfalso. apply (Hj 0); [lia|exact E].
    + rewrite (IH (S k) i); [f_equal; lia | cbn in Hi; lia | exact Hx |].
      intros j Hji. apply (Hj (S j)). lia.
Qed.

Lemma forallb_hex_lower (x : str) : forallb is_hex_char (lower x) = forallb is_hex_char x.
Proof.
  induction x as [|c r IH]; [reflexivity|]. cbn [lower map forallb] in *.
  rewrite is_hex_char_lower. unfold lower in IH. rewrite IH. reflexivity.
Qed.

Lemma bytes_fromhex_lower (x : str) : bytes_fromhex (lower x) = bytes_fromhex x.
Proof. unfold bytes_fromhex. rewrite fromhex_lower. reflexivity. Qed.

(** The display hash of 64 hex digits: its bytes, reversed, are the
    internal bytes [hash_to_internal_hex] and [hash_to_digest_array]
    print. *)
Lemma hex64_internal (x : str) :
  length x = 64 -> forallb is_hex_char x = true ->
  exists d, length d = 32 /\ bytes_fromhex x = Ok (rev d) /\
    hash_to_internal_hex x = Ok (bytes_hex d) /\ hash_to_digest_array x = Ok (digest_words d).
Proof.
  intros Hl Hx. destruct (DigestExtras.internal_bytes_hex x Hx ltac:(lia)) as [d [Ld [Ez Ed]]].
  exists d. split; [exact Ld|].
  unfold hash_to_internal_hex, hash_to_digest_array, internal_bytes. cbv zeta. rewrite Ed.
  cbn [bind]. rewrite rev_involutive. split; [|split; reflexivity].
  rewrite Ez, Hl in Ed. exact Ed.
Qed.

Lemma hash_to_digest_array_display (b : bytes) :
  length b = 32 -> hash_to_digest_array (bytes_hex (rev b)) = Ok (digest_words b).
Proof.
  intros Hb. unfold hash_to_digest_array, internal_bytes. cbv zeta.
  rewrite replace_0x_hex by (apply lower_hex_text_hex, FetchClaims.bytes_hex_lower).
  unfold zfill. rewrite length_bytes_hex, length_rev, Hb. cbn [Nat.leb Nat.mul Nat.add].
  unfold bytes_fromhex. rewrite fromhex_bytes_hex. cbn [bind]. rewrite rev_involutive. reflexivity.
Qed.

Lemma res_map_txids (txids : list str) :
  Forall (fun t => length t = 64 /\ forallb is_hex_char t = true) txids ->
  exists th, res_map (fun tid => let* b := bytes_fromhex tid in Ok (rev b)) txids = Ok th /\
    length th = length txids /\ Forall (fun b => length b = 32) th /\
    (forall j, j < length txids -> bytes_fromhex (nth j txids []) = Ok (rev (nth j th []))).
Proof.
  induction 1 as [|t r [Hl Hx] _ [th [E [L [F N]]]]].
  - exists []. split; [reflexivity|]. split; [reflexivity|]. split; [constructor|]. cbn; lia.
  - destruct (fromhex_hex_text 32 t ltac:(lia) Hx) as [d [Ed [Ld _]]].
    exists (rev d :: th). cbn [res_map]. unfold bytes_fromhex at 1. rewrite Ed. cbn [bind].
    rewrite E. cbn [bind]. split; [reflexivity|]. split; [cbn; lia|].
    split; [constructor; [rewrite length_rev; exact Ld|exact F]|].
    intros [|j] Hj.
    + cbn [nth]. rewrite rev_involutive. unfold bytes_fromhex. rewrite Ed. reflexivity.
    + cbn [nth]. apply N. cbn in Hj. lia.
Qed.

Section Branch.

Variable sha256 : bytes -> bytes.
Variable P : bytes -> Prop.
Hypothesis P_hash : forall x, P (double_sha256 sha256 x).

Lemma pad_forall (l : list bytes) : Forall P l -> Forall P (pad l).
Proof.
  intros H. unfold pad. destruct (Nat.odd (length l)) eqn:E; [|exact H].
  apply Forall_app. split; [exact H|]. constructor; [|constructor].
  destruct l as [|a t] using rev_ind; [discriminate E|].
  rewrite last_last. apply Forall_app in H as [_ H]. inversion H. assumption.
Qed.

Lemma hash_pairs_forall (l : list bytes) : Forall P (hash_pairs sha256 l).
Proof.
  induction l as [l IH] using (induction_ltof1 _ (@length bytes)).
  destruct l as [|a [|b t]]; try constructor.
  - apply P_hash.
  - apply IH. unfold ltof. cbn. lia.
Qed.

Lemma proof_walk_forall (fuel : nat) (current X : list bytes) (idx : nat) :
  Forall P current -> pad X = pad current ->
  Forall P (proof_walk (removelast (X :: upper_levels sha256 fuel current)) idx).
Proof.
  revert current X idx. induction fuel as [|fuel IH]; intros current X idx Hc HX; [constructor|].
  cbn [upper_levels]. destruct (1 <? length current); [|constructor].
  rewrite removelast_cons2. cbn [proof_walk]. rewrite HX. apply Forall_app. split.
  - destruct (_ <? _) eqn:E; [|constructor]. constructor; [|constructor].
    apply Nat.ltb_lt in E. apply (proj1 (Forall_forall _ _) (pad_forall _ Hc)). apply nth_In. exact E.
  - apply IH; [apply hash_pairs_forall|].
    destruct (1 <? length (hash_pairs sha256 (pad current))); [apply pad_idem|reflexivity].
Qed.

End Branch.

(** A [txid] that matches no transaction of the block (ignoring case)
    raises the exception [Transaction <txid> not found in block <hash>],
    before any hex is parsed. *)
Theorem generate_merkle_proof_not_found (sha256 : bytes -> bytes) (block_hash0 : str)
    (txids : list str) (merkle_root0 txid : str) :
  (forall tid, In tid txids -> lower tid <> lower txid) ->
  generate_merkle_proof sha256 (block_hash0, txids, merkle_root0) txid =
    Err (Exn Exception (s "Transaction " ++ txid ++ s " not found in block " ++ block_hash0)).
Proof. intros H. unfold generate_merkle_proof. rewrite find_tx_none by exact H. reflexivity. Qed.

Lemma generate_merkle_proof_not_found_witness :
  (forall tid, In tid [s "aa"; s "bb"] -> lower tid <> lower (s "CC")) /\
  generate_merkle_proof Samples.toy_sha256 (s "00", [s "aa"; s "bb"], s "zz") (s "CC") =
    Err (Exn Exception (s "Transaction " ++ s "CC" ++ s " not found in block " ++ s "00")).
Proof.
  assert (H : forall tid, In tid [s "aa"; s "bb"] -> lower tid <> lower (s "CC")).
  { intros tid [<-|[<-|[]]]; discriminate. }
  split; [exact H | apply generate_merkle_proof_not_found; exact H].
Defined.

(** For the first transaction [i] whose id matches [txid] ignoring case,
    in a block whose ids, hash and merkle root are 64 hex digits, and a
    hash with 32-byte results: [generate_merkle_proof] succeeds with index
    [i] and the block's transaction count; it gives the leaf's internal hex
    and words, a branch of [ceil(log2 n)] 32-byte siblings written in
    display and internal hex and as words; and it warns exactly when
    folding the leaf over the branch does not give the reversed merkle
    root. *)
Theorem generate_merkle_proof_result (sha256 : bytes -> bytes) (block_hash0 : str)
    (txids : list str) (merkle_root0 txid : str) (i : nat) :
  (forall b, length (sha256 b) = 32) ->
  Forall (fun t => length t = 64 /\ forallb is_hex_char t = true) txids ->
  length block_hash0 = 64 -> forallb is_hex_char block_hash0 = true ->
  length merkle_root0 = 64 -> forallb is_hex_char merkle_root0 = true ->
  i < length txids -> lower (nth i txids []) = lower txid ->
  (forall j, j < i -> lower (nth j txids []) <> lower txid) ->
  exists warned p leaf branch expected,
    generate_merkle_proof sha256 (block_hash0, txids, merkle_root0) txid = Ok (warned, p) /\
    bytes_fromhex txid = Ok (rev leaf) /\ bytes_fromhex merkle_root0 = Ok expected /\
    merkle_index p = i /\ tx_count p = length txids /\ tx_id p = txid /\
    tx_id_internal p = bytes_hex leaf /\ tx_id_digest p = digest_words leaf /\
    merkle_branch p = map (fun b => bytes_hex (rev b)) branch /\
    merkle_branch_internal p = map bytes_hex branch /\
    merkle_branch_digests p = map digest_words branch /\
    Forall (fun b => length b = 32) branch /\
    length branch = Nat.log2_up (length txids) /\
    warned = negb (VerifyProof.verifyProof sha256 leaf branch i (rev expected)).
Proof.
  intros Hsha Htx Hbl Hbx Hml Hmx Hi Hx Hfirst.
  destruct (res_map_txids txids Htx) as [th [Eth [Lth [Fth Nth]]]].
  assert (Ht : length (nth i txids []) = 64 /\ forallb is_hex_char (nth i txids []) = true)
    by (apply (proj1 (Forall_forall _ _) Htx), nth_In, Hi).
  destruct Ht as [Htl Htx'].
  assert (Hxl : length txid = 64)
    by (rewrite <- Htl, <- (length_map lower_char txid), <- (length_map lower_char (nth i txids [])); symmetry;
        exact (f_equal (@length ascii) Hx)).
  assert (Hxx : forallb is_hex_char txid = true)
    by (rewrite <- forallb_hex_lower, <- Hx, forallb_hex_lower; exact Htx').
  destruct (hex64_internal txid Hxl Hxx) as [leaf [Ll [Fl [Il Dl]]]].
  destruct (hex64_internal block_hash0 Hbl Hbx) as [bb [_ [_ [Ib Db]]]].
  destruct (hex64_internal merkle_root0 Hml Hmx) as [mm [_ [Fm [Im Dm]]]].
  assert (Hleaf : nth i th [] = leaf).
  { specialize (Nth i Hi). rewrite <- bytes_fromhex_lower, Hx, bytes_fromhex_lower, Fl in Nth.
    injection Nth as Nth. apply (f_equal (@rev _)) in Nth. rewrite !rev_involutive in Nth.
    symmetry. exact Nth. }
  assert (Hne : th <> []) by (intros E; subst th; cbn in Lth; lia).
  assert (Hi' : i < length th) by (rewrite Lth; exact Hi).
  destruct (get_merkle_proof sha256 th i) as [branch root] eqn:G.
  pose proof G as G'. rewrite get_merkle_proof_levels in G' by exact Hne.
  assert (Eb : proof_walk (removelast (th :: upper_levels sha256 (length th) th)) i = branch)
    by (injection G' as Eb _; exact Eb).
  assert (Er : hd [] (final_level sha256 (length th) th) = root) by (injection G' as _ Er; exact Er).
  assert (Fb : Forall (fun b => length b = 32) branch).
  { rewrite <- Eb. apply (proof_walk_forall sha256 (fun b => length b = 32)); [|exact Fth|reflexivity].
    intros x. apply Hsha. }
  assert (Db' : res_map (fun b => hash_to_digest_array (bytes_hex (rev b))) branch =
                Ok (map digest_words branch)).
  { clear -Fb. induction Fb as [|b t Hb _ IH]; [reflexivity|].
    cbn [res_map map]. rewrite hash_to_digest_array_display by exact Hb. cbn [bind].
    rewrite IH. reflexivity. }
  do 5 eexists. split.
  { unfold generate_merkle_proof.
    rewrite (find_tx_first txids (lower txid) 0 i Hi Hx Hfirst). cbn [Nat.add].
    rewrite Eth. cbn [bind]. rewrite G. rewrite Fm. cbn [bind].
    rewrite Il, Dl, Ib, Db, Im, Dm. cbn [bind]. rewrite Db'. cbn [bind]. reflexivity. }
  cbn [merkle_index tx_count tx_id tx_id_internal tx_id_digest merkle_branch merkle_branch_internal
       merkle_branch_digests].
  split; [exact Fl|]. split; [exact Fm|].
  do 8 (split; [reflexivity|]). split; [exact Fb|]. split.
  - rewrite <- Eb, proof_walk_length by (reflexivity || exact Hi'). f_equal. exact Lth.
  - unfold VerifyProof.verifyProof. rewrite <- Hleaf, <- Eb.
    rewrite proof_walk_fold by (reflexivity || exact Hi'). rewrite <- Er.
    unfold bytes_eqb. destruct (list_eq_dec _ _ _); reflexivity.
Qed.

Lemma generate_merkle_proof_result_witness :
  let sha256 := MoreSamples.sha32 in let block_hash0 := MoreSamples.sample_blockhash in
  let txids := MoreSamples.sample_txids in
  let merkle_root0 := FetchBlock.merkleroot MoreSamples.sample_rpc in
  let txid := MoreSamples.sample_txid_upper in let i := 1 in
  ((forall b, length (sha256 b) = 32) /\
   Forall (fun t => length t = 64 /\ forallb is_hex_char t = true) txids /\
   length block_hash0 = 64 /\ forallb is_hex_char block_hash0 = true /\
   length merkle_root0 = 64 /\ forallb is_hex_char merkle_root0 = true /\
   i < length txids /\ lower (nth i txids []) = lower txid /\
   (forall j, j < i -> lower (nth j txids []) <> lower txid)) /\
  exists warned p leaf branch expected,
    generate_merkle_proof sha256 (block_hash0, txids, merkle_root0) txid = Ok (warned, p) /\
    bytes_fromhex txid = Ok (rev leaf) /\ bytes_fromhex merkle_root0 = Ok expected /\
    merkle_index p = i /\ tx_count p = length txids /\ tx_id p = txid /\
    tx_id_internal p = bytes_hex leaf /\ tx_id_digest p = digest_words leaf /\
    merkle_branch p = map (fun b => bytes_hex (rev b)) branch /\
    merkle_branch_internal p = map bytes_hex branch /\
    merkle_branch_digests p = map digest_words branch /\
    Forall (fun b => length b = 32) branch /\
    length branch = Nat.log2_up (length txids) /\
    warned = negb (VerifyProof.verifyProof sha256 leaf branch i (rev expected)).
Proof.
  cbv zeta.
  assert (Hs : forall b, length (MoreSamples.sha32 b) = 32) by exact FetchExtras.sha32_length.
  assert (Ht : Forall (fun t => length t = 64 /\ forallb is_hex_char t = true) MoreSamples.sample_txids)
    by (repeat constructor).
  assert (Hj : forall j, j < 1 ->
            lower (nth j MoreSamples.sample_txids []) <> lower MoreSamples.sample_txid_upper)
    by (intros [|j] Hj; [vm_compute; discriminate | lia]).
  assert (Hx : lower (nth 1 MoreSamples.sample_txids []) = lower MoreSamples.sample_txid_upper)
    by (vm_compute; reflexivity).
  split; [repeat split; first [exact Hs | exact Ht | exact Hj | exact Hx | reflexivity | cbn; lia]|].
  apply generate_merkle_proof_result;
    first [exact Hs | exact Ht | exact Hj | exact Hx | reflexivity | cbn; lia].
Defined.

End ProofOutputExtras.

(** ** [format_cairo_calldata]: the text read back *)
Module CalldataTextExtras.

Import MerkleProofOutput HexText TextProofs.

Definition no_nl (l : str) : Prop := ~ In newline l.

Lemma no_nl_app (a b : str) : no_nl a -> no_nl b -> no_nl (a ++ b).
Proof. unfold no_nl. intros Ha Hb H. apply in_app_or in H. tauto. Qed.

Lemma no_nl_lit (x : str) :
  existsb (fun c => if ascii_dec c newline then true else false) x = false -> no_nl x.
Proof.
  unfold no_nl. intros E H. assert (X : exists c, In c x /\
    (if ascii_dec c newline then true else false) = true).
  { exists newline. split; [exact H|]. destruct (ascii_dec newline newline); congruence. }
  apply existsb_exists in X. congruence.
Qed.

Lemma no_nl_str_int (v : Z) : (0 <= v)%Z -> no_nl (str_int v).
Proof. apply str_int_no_newline. Qed.

Ltac no_nl_tac :=
  repeat first [assumption | apply no_nl_app | apply no_nl_lit; reflexivity
               | apply no_nl_str_int; lia].

Lemma filter_cons_false {A} (f : A -> bool) (a : A) (l : list A) :
  f a = false -> filter f (a :: l) = filter f l.
Proof. intros E. cbn. rewrite E. reflexivity. Qed.

Lemma filter_cons_true {A} (f : A -> bool) (a : A) (l : list A) :
  f a = true -> filter f (a :: l) = a :: filter f l.
Proof. intros E. cbn. rewrite E. reflexivity. Qed.

Lemma filter_data_str_int (l : list Z) :
  Forall (fun v => 0 <= v)%Z l -> filter data_line (map str_int l) = map str_int l.
Proof.
  induction 1 as [|v l Hv _ IH]; [reflexivity|].
  cbn [map]. rewrite filter_cons_true by (apply data_line_str_int; exact Hv). rewrite IH. reflexivity.
Qed.

Lemma Forall_no_nl_str_int (l : list Z) :
  Forall (fun v => 0 <= v)%Z l -> Forall no_nl (map str_int l).
Proof. intros H. apply Forall_map. eapply Forall_impl; [|exact H]. apply no_nl_str_int. Qed.

Lemma Forall_concat_nonneg (ds : list (list Z)) :
  Forall (Forall (fun v => 0 <= v)%Z) ds -> Forall (fun v => 0 <= v)%Z (concat ds).
Proof. induction 1; cbn [concat]; [constructor|apply Forall_app; auto]. Qed.

Lemma branch_lines_ok (ds : list (list Z)) (br : list str) (i : nat) :
  i + length ds <= length br ->
  Forall (Forall (fun v => 0 <= v)%Z) ds -> Forall no_nl br ->
  exists ls, branch_lines i ds br = Ok ls /\ Forall no_nl ls /\
    filter data_line ls = map str_int (concat ds).
Proof.
  revert i. induction ds as [|d t IH]; intros i Hlen Hd Hb.
  - exists []. split; [reflexivity|]. split; constructor.
  - inversion Hd as [|? ? Hd0 Ht]; subst. cbn [length] in Hlen.
    destruct (IH (S i) ltac:(lia) Ht Hb) as [ls [E [N F]]].
    assert (Hi : nth_error br i = Some (nth i br [])) by (apply nth_error_nth'; lia).
    exists ((s "// branch[" ++ str_int (Z.of_nat i) ++ s "]: " ++ nth i br []) :: map str_int d ++ ls).
    cbn [branch_lines]. unfold index at 1. rewrite Hi. cbn [bind]. rewrite E. cbn [bind].
    split; [reflexivity|]. split.
    + constructor; [|apply Forall_app; split; [apply Forall_no_nl_str_int; exact Hd0|exact N]].
      assert (Hl : i < length br) by lia.
      rewrite Forall_forall in Hb. pose proof (Hb (nth i br []) (nth_In br [] Hl)).
      no_nl_tac.
    + rewrite filter_cons_false by reflexivity. rewrite filter_app, filter_data_str_int by exact Hd0.
      rewrite F. cbn [concat]. rewrite map_app. reflexivity.
Qed.

Lemma branch_lines_short (ds : list (list Z)) (br : list str) (i : nat) :
  i <= length br < i + length ds ->
  branch_lines i ds br = Err (Exn IndexError (s "index out of range")).
Proof.
  revert i. induction ds as [|d t IH]; intros i Hlen; cbn [length] in Hlen; [lia|].
  cbn [branch_lines]. unfold index at 1.
  destruct (nth_error br i) eqn:Hi.
  - assert (i < length br) by (apply nth_error_Some; congruence).
    cbn [bind]. rewrite IH by lia. reflexivity.
  - reflexivity.
Qed.

(** [format_cairo_calldata] succeeds when every branch digest has its
    branch string, and its non-comment, non-empty lines read back with
    [int()] are the block hash words, the transaction id words, the branch
    count, the branch digests' words in order and the leaf index. *)
Theorem format_cairo_calldata_values (p : proof_result) :
  Forall (fun v => 0 <= v)%Z (block_hash_digest p) ->
  Forall (fun v => 0 <= v)%Z (tx_id_digest p) ->
  Forall (Forall (fun v => 0 <= v)%Z) (merkle_branch_digests p) ->
  length (merkle_branch_digests p) <= length (merkle_branch p) ->
  no_nl (block_hash p) -> no_nl (tx_id p) -> Forall no_nl (merkle_branch p) ->
  exists txt, format_cairo_calldata p = Ok txt /\
    map int10 (filter data_line (split_nl txt)) =
      map Ok (block_hash_digest p ++ tx_id_digest p ++
              Z.of_nat (length (merkle_branch p)) :: concat (merkle_branch_digests p) ++
              [Z.of_nat (merkle_index p)]).
Proof.
  intros Hb Ht Hd Hlen Nb Nt Nbr.
  assert (Hl0 : 0 + length (merkle_branch_digests p) <= length (merkle_branch p)) by lia.
  destruct (branch_lines_ok _ _ 0 Hl0 Hd Nbr) as [ls [E [N F]]].
  unfold format_cairo_calldata. rewrite E. cbn [bind]. eexists; split; [reflexivity|].
  rewrite split_join_nl.
  2: discriminate.
  2: { repeat (apply Forall_app; split).
       all: try (apply Forall_no_nl_str_int; assumption).
       all: try exact N.
       all: repeat constructor; no_nl_tac. }
  rewrite !filter_app.
  repeat first [rewrite filter_cons_false by reflexivity
               | rewrite filter_cons_true by (apply data_line_str_int; lia)].
  rewrite !filter_data_str_int by assumption. rewrite F. cbn [filter app].
  rewrite <- map_int10_str_int.
  - f_equal. rewrite !map_app. cbn [map]. rewrite !map_app. reflexivity.
  - repeat (apply Forall_app; split); try assumption.
    constructor; [lia|]. apply Forall_app; split; [apply Forall_concat_nonneg; exact Hd|].
    constructor; [lia|constructor].
Qed.

(** [format_cairo_calldata] raises [IndexError] when there are more branch
    digests than branch strings. *)
Theorem format_cairo_calldata_index_error (p : proof_result) :
  length (merkle_branch p) < length (merkle_branch_digests p) ->
  format_cairo_calldata p = Err (Exn IndexError (s "index out of range")).
Proof.
  intros H. unfold format_cairo_calldata. rewrite branch_lines_short by lia. reflexivity.
Qed.

Lemma format_cairo_calldata_values_witness :
  let p := MoreSamples.sample_proof [[4; 5]%Z] in
  (Forall (fun v => 0 <= v)%Z (block_hash_digest p) /\
   Forall (fun v => 0 <= v)%Z (tx_id_digest p) /\
   Forall (Forall (fun v => 0 <= v)%Z) (merkle_branch_digests p) /\
   length (merkle_branch_digests p) <= length (merkle_branch p) /\
   no_nl (block_hash p) /\ no_nl (tx_id p) /\ Forall no_nl (merkle_branch p)) /\
  exists txt, format_cairo_calldata p = Ok txt /\
    map int10 (filter data_line (split_nl txt)) =
      map Ok (block_hash_digest p ++ tx_id_digest p ++
              Z.of_nat (length (merkle_branch p)) :: concat (merkle_branch_digests p) ++
              [Z.of_nat (merkle_index p)]).
Proof.
  cbv zeta.
  assert (H : Forall (fun v => 0 <= v)%Z (block_hash_digest (MoreSamples.sample_proof [[4; 5]%Z])) /\
   Forall (fun v => 0 <= v)%Z (tx_id_digest (MoreSamples.sample_proof [[4; 5]%Z])) /\
   Forall (Forall (fun v => 0 <= v)%Z) (merkle_branch_digests (MoreSamples.sample_proof [[4; 5]%Z])) /\
   length (merkle_branch_digests (MoreSamples.sample_proof [[4; 5]%Z]))
     <= length (merkle_branch (MoreSamples.sample_proof [[4; 5]%Z])) /\
   no_nl (block_hash (MoreSamples.sample_proof [[4; 5]%Z])) /\
   no_nl (tx_id (MoreSamples.sample_proof [[4; 5]%Z])) /\
   Forall no_nl (merkle_branch (MoreSamples.sample_proof [[4; 5]%Z]))).
  { cbn. repeat split; repeat constructor; try lia; apply no_nl_lit; reflexivity. }
  split; [exact H|].
  destruct H as [H1 [H2 [H3 [H4 [H5 [H6 H7]]]]]].
  exact (format_cairo_calldata_values _ H1 H2 H3 H4 H5 H6 H7).
Defined.

Lemma format_cairo_calldata_index_error_witness :
  let p := MoreSamples.sample_proof [[4; 5]; [6]]%Z in
  length (merkle_branch p) < length (merkle_branch_digests p) /\
  format_cairo_calldata p = Err (Exn IndexError (s "index out of range")).
Proof.
  cbv zeta. split; [cbn; lia|]. apply format_cairo_calldata_index_error. cbn. lia.
Defined.

End CalldataTextExtras.

(** ** [populate_block] *)
Module PopulateExtras.

Import PopulateTxs HexText TextProofs.

Lemma dict_get_set_same {V} (d : list (str * V)) (k : str) (v : V) :
  dict_get (dict_set d k v) k = Some v.
Proof.
  induction d as [|[k' v'] t IH]; cbn.
  - unfold str_eqb. destruct (list_eq_dec ascii_dec k k); congruence.
  - destruct (str_eqb k' k) eqn:E; cbn.
    + unfold str_eqb. destruct (list_eq_dec ascii_dec k k); congruence.
    + rewrite E. exact IH.
Qed.

Lemma dict_get_set_other {V} (d : list (str * V)) (k k' : str) (v : V) :
  k' <> k -> dict_get (dict_set d k v) k' = dict_get d k'.
Proof.
  intros Hne. induction d as [|[k0 v0] t IH]; cbn.
  - unfold str_eqb. destruct (list_eq_dec ascii_dec k k'); [congruence|reflexivity].
  - destruct (str_eqb k0 k) eqn:E; cbn.
    + apply str_eqb_eq in E. subst k0.
      unfold str_eqb. destruct (list_eq_dec ascii_dec k k'); [congruence|reflexivity].
    + destruct (str_eqb k0 k'); [reflexivity|exact IH].
Qed.

Lemma dict_set_keys {V} (d : list (str * V)) (k : str) (v : V) :
  map fst (dict_set d k v) =
    if existsb (fun k' => str_eqb k' k) (map fst d) then map fst d else map fst d ++ [k].
Proof.
  induction d as [|[k0 v0] t IH]; [reflexivity|]. cbn.
  destruct (str_eqb k0 k) eqn:E; cbn.
  - apply str_eqb_eq in E. subst k0. reflexivity.
  - rewrite IH. destruct (existsb _ _); reflexivity.
Qed.

Lemma index_step_names (i : nat) : i < 11 -> index STEP_NAMES i = Ok (nth i STEP_NAMES []).
Proof.
  intros H. unfold index. rewrite (nth_error_nth' STEP_NAMES []) by (cbn; lia). reflexivity.
Qed.

Lemma index_step_names_out (i : nat) :
  11 <= i -> index STEP_NAMES i = Err (Exn IndexError (s "index out of range")).
Proof.
  intros H. unfold index. rewrite (proj2 (nth_error_None STEP_NAMES i)) by (cbn; lia). reflexivity.
Qed.

Lemma nth_app_cons (pre t : list str) (x : str) : nth (length pre) (pre ++ x :: t) [] = x.
Proof. rewrite app_nth2 by lia. rewrite Nat.sub_diag. reflexivity. Qed.

Lemma collect_ok (pre txs : list str) :
  (forall i, length pre <= i < length pre + length txs ->
     keeps_tx (nth i (pre ++ txs) []) = true -> i < 11) ->
  collect (length pre) txs =
    Ok (map (fun i => JObj [(s "step", JInt (Z.of_nat (i + 1))); (s "name", JStr (nth i STEP_NAMES []));
                            (s "txHash", JStr (nth i (pre ++ txs) [])); (s "time", JInt 0%Z)])
            (filter (fun i => keeps_tx (nth i (pre ++ txs) [])) (seq (length pre) (length txs)))).
Proof.
  revert pre. induction txs as [|x t IH]; intros pre H; [reflexivity|].
  assert (Ea : pre ++ x :: t = (pre ++ [x]) ++ t) by (rewrite <- app_assoc; reflexivity).
  assert (IH' := IH (pre ++ [x])). rewrite <- Ea, length_app in IH'. cbn [length] in IH'.
  rewrite Nat.add_1_r in IH'.
  specialize (IH' ltac:(intros i Hi; apply H; cbn [length]; lia)).
  cbn [collect length seq filter]. rewrite nth_app_cons.
  destruct (keeps_tx x) eqn:K.
  - rewrite index_step_names by (apply H; [cbn [length]; lia|rewrite nth_app_cons; exact K]).
    cbn [bind]. rewrite IH'. cbn [map]. rewrite nth_app_cons. reflexivity.
  - exact IH'.
Qed.

Lemma collect_error (pre txs : list str) (i : nat) :
  length pre <= i < length pre + length txs -> keeps_tx (nth i (pre ++ txs) []) = true -> 11 <= i ->
  collect (length pre) txs = Err (Exn IndexError (s "index out of range")).
Proof.
  revert pre. induction txs as [|x t IH]; intros pre Hi K Hge; cbn [length] in Hi; [lia|].
  assert (Ea : pre ++ x :: t = (pre ++ [x]) ++ t) by (rewrite <- app_assoc; reflexivity).
  cbn [collect]. destruct (Nat.eq_dec i (length pre)) as [->|Hne].
  - rewrite nth_app_cons in K. rewrite K, index_step_names_out by exact Hge. reflexivity.
  - assert (IH' := IH (pre ++ [x])). rewrite length_app in IH'. cbn [length] in IH'.
    rewrite Nat.add_1_r in IH'. rewrite Ea in K.
    destruct (keeps_tx x) eqn:Kx.
    + destruct (Nat.lt_ge_cases (length pre) 11) as [Hl|Hl].
      * rewrite index_step_names by exact Hl. cbn [bind]. rewrite IH' by (auto; lia). reflexivity.
      * rewrite index_step_names_out by exact Hl. reflexivity.
    + apply IH'; [lia|exact K|exact Hge].
Qed.

(** [populate_block] succeeds when every kept hash ([tx_hash] non-empty
    and starting with [0x]) sits at one of the eleven step positions.
    The [block_<n>] entry then holds [vid] and, in order, one transaction
    per kept hash: its step [i + 1], the step name [STEP_NAMES[i]], the
    hash and time [0].  Every other key keeps its value, an existing block
    key keeps its place and a new one is added last. *)
Theorem populate_block_result (data : list (str * json)) (block_num : Z) (tx_hashes : list str)
    (vid : str) :
  (forall i, i < length tx_hashes -> keeps_tx (nth i tx_hashes []) = true -> i < 11) ->
  let block_key := s "block_" ++ str_int block_num in
  exists data',
    populate_block data block_num tx_hashes vid = Ok data' /\
    dict_get data' block_key =
      Some (JObj [(s "verification_id", JStr vid);
                  (s "transactions",
                   JList (map (fun i => JObj [(s "step", JInt (Z.of_nat (i + 1)));
                                              (s "name", JStr (nth i STEP_NAMES []));
                                              (s "txHash", JStr (nth i tx_hashes []));
                                              (s "time", JInt 0%Z)])
                              (filter (fun i => keeps_tx (nth i tx_hashes []))
                                 (seq 0 (length tx_hashes)))))]) /\
    (forall k, k <> block_key -> dict_get data' k = dict_get data k) /\
    map fst data' =
      if existsb (fun k => str_eqb k block_key) (map fst data) then map fst data
      else map fst data ++ [block_key].
Proof.
  intros H block_key. unfold populate_block.
  assert (C := collect_ok [] tx_hashes ltac:(intros i Hi; apply H; cbn in Hi; lia)).
  cbn [length app] in C. rewrite C. cbn [bind]. eexists. split; [reflexivity|].
  split; [apply dict_get_set_same|]. split.
  - intros k Hk. apply dict_get_set_other. exact Hk.
  - apply dict_set_keys.
Qed.

(** A kept hash at position 11 or later raises [IndexError] at
    [STEP_NAMES[i]], and [data] is not written. *)
Theorem populate_block_too_many (data : list (str * json)) (block_num : Z) (tx_hashes : list str)
    (vid : str) (i : nat) :
  i < length tx_hashes -> keeps_tx (nth i tx_hashes []) = true -> 11 <= i ->
  populate_block data block_num tx_hashes vid = Err (Exn IndexError (s "index out of range")).
Proof.
  intros Hi K Hge. unfold populate_block.
  assert (C := collect_error [] tx_hashes i ltac:(cbn; lia) K Hge).
  cbn [length] in C. rewrite C. reflexivity.
Qed.

Lemma populate_block_result_witness :
  let data := [(s "block_1", JNull)] in let block_num := 2%Z in
  let tx_hashes := [s "0xab"; []; s "zz"; s "0x01"] in let vid := s "v" in
  (forall i, i < length tx_hashes -> keeps_tx (nth i tx_hashes []) = true -> i < 11) /\
  let block_key := s "block_" ++ str_int block_num in
  exists data',
    populate_block data block_num tx_hashes vid = Ok data' /\
    dict_get data' block_key =
      Some (JObj [(s "verification_id", JStr vid);
                  (s "transactions",
                   JList (map (fun i => JObj [(s "step", JInt (Z.of_nat (i + 1)));
                                              (s "name", JStr (nth i STEP_NAMES []));
                                              (s "txHash", JStr (nth i tx_hashes []));
                                              (s "time", JInt 0%Z)])
                              (filter (fun i => keeps_tx (nth i tx_hashes []))
                                 (seq 0 (length tx_hashes)))))]) /\
    (forall k, k <> block_key -> dict_get data' k = dict_get data k) /\
    map fst data' =
      if existsb (fun k => str_eqb k block_key) (map fst data) then map fst data
      else map fst data ++ [block_key].
Proof.
  cbv zeta.
  assert (H : forall i, i < length [s "0xab"; []; s "zz"; s "0x01"] ->
            keeps_tx (nth i [s "0xab"; []; s "zz"; s "0x01"] []) = true -> i < 11)
    by (intros i Hi _; cbn in Hi; lia).
  split; [exact H|]. exact (populate_block_result _ _ _ _ H).
Defined.

Lemma populate_block_too_many_witness :
  let tx_hashes := repeat (s "0x1") 12 in
  (11 < length tx_hashes /\ keeps_tx (nth 11 tx_hashes []) = true /\ 11 <= 11) /\
  populate_block [] 5%Z tx_hashes [] = Err (Exn IndexError (s "index out of range")).
Proof.
  cbv zeta. split; [split; [cbn; lia|split; [reflexivity|lia]]|].
  apply (populate_block_too_many _ _ _ _ 11); [cbn; lia|reflexivity|lia].
Defined.

End PopulateExtras.
